(** * gcs-helper: the prefix-to-manifest mapping engine

    A shallow embedding of the mapping engine of gcs-helper (the map handler,
    prefix fan-out, listing with bounded retry, extra-resource injection and
    URL signing) together with the properties its specification states.

    Go strings are byte strings; they are modelled by [string] (a list of
    8-bit [ascii] characters).  The storage client, the regular-expression
    engine, the URL signer and the URL parser are collaborators outside the
    repository; they are the fields of a [World]. *)

From Stdlib Require Import String Ascii ZArith Lia Bool.
From stdpp Require Import base option list gmap strings.

(** ** Go's [strings] package, as far as the engine calls it *)

Module GoStrings.

(** [s[n:]] *)
Fixpoint drop (n : nat) (s : string) : string :=
  match n, s with
  | 0, _ => s
  | S _, EmptyString => EmptyString
  | S n', String _ s' => drop n' s'
  end.

(** [s[:n]] *)
Fixpoint take (n : nat) (s : string) : string :=
  match n, s with
  | 0, _ => EmptyString
  | S _, EmptyString => EmptyString
  | S n', String c s' => String c (take n' s')
  end.

(** [strings.HasPrefix] *)
Definition HasPrefix (s pre : string) : bool := String.prefix pre s.

(** [strings.Index]: the position of the first occurrence of [substr];
    [None] stands for Go's [-1]. *)
Fixpoint Index (s substr : string) : option nat :=
  if String.prefix substr s then Some 0
  else match s with
       | EmptyString => None
       | String _ s' => S <$> Index s' substr
       end.

(** [strings.Contains] *)
Definition Contains (s substr : string) : bool :=
  match Index s substr with Some _ => true | None => false end.

(** The counting loop of [strings.Count] for a non-empty [substr]: the number
    of non-overlapping occurrences. *)
Fixpoint Count_loop (fuel : nat) (s substr : string) : nat :=
  match fuel with
  | 0 => 0
  | S fuel' =>
      match Index s substr with
      | None => 0
      | Some i => S (Count_loop fuel' (drop (i + String.length substr) s) substr)
      end
  end.

(** [strings.Count]; with an empty [substr] Go answers the number of runes
    plus one (a rune is one byte here). *)
Definition Count (s substr : string) : nat :=
  if bool_decide (substr = "") then S (String.length s)
  else Count_loop (String.length s) s substr.

(** The loop of [strings.Replace]; [s] is [s[start:]], [first] says that
    [i = 0]. *)
Fixpoint Replace_loop (n : nat) (first : bool) (s old new : string) : string :=
  match n with
  | 0 => s
  | S n' =>
      let j := if bool_decide (old = "")
               then (if first then 0 else 1)
               else default 0 (Index s old) in
      take j s +:+ new +:+
        Replace_loop n' false (drop (j + String.length old) s) old new
  end.

(** [strings.Replace(s, old, new, n)] *)
Definition Replace (s old new : string) (n : Z) : string :=
  if bool_decide (old = new) || bool_decide (n = 0%Z) then s
  else
    let m := Count s old in
    if bool_decide (m = 0) then s
    else
      let n' := if bool_decide (n < 0)%Z || bool_decide (Z.of_nat m < n)%Z
                then m else Z.to_nat n in
      Replace_loop n' true s old new.

(** [explode]: the split into single characters, at most [n] pieces. *)
Fixpoint explode_loop (n : nat) (s : string) : list string :=
  match n with
  | 0 => []
  | 1 => [s]
  | S n' =>
      match s with
      | EmptyString => [s]
      | String c s' => String c EmptyString :: explode_loop n' s'
      end
  end.

(** The loop of [genSplit]: at most [n] cuts. *)
Fixpoint genSplit_loop (n : nat) (s sep : string) : list string :=
  match n with
  | 0 => [s]
  | S n' =>
      match Index s sep with
      | None => [s]
      | Some m =>
          take m s :: genSplit_loop n' (drop (m + String.length sep) s) sep
      end
  end.

(** [genSplit(s, sep, 0, n)] *)
Definition genSplit (s sep : string) (n : Z) : list string :=
  if bool_decide (n = 0)%Z then []
  else if bool_decide (sep = "") then
    let l := String.length s in
    explode_loop
      (if bool_decide (n < 0)%Z || bool_decide (Z.of_nat l < n)%Z
       then l else Z.to_nat n) s
  else
    let n1 := if bool_decide (n < 0)%Z then S (Count s sep) else Z.to_nat n in
    let n2 := if bool_decide (S (String.length s) < n1)
              then S (String.length s) else n1 in
    genSplit_loop (pred n2) s sep.

(** [strings.Split] and [strings.SplitN] *)
Definition Split (s sep : string) : list string := genSplit s sep (-1).
Definition SplitN (s sep : string) (n : Z) : list string := genSplit s sep n.

(** Does [cutset] contain the byte [c]? *)
Fixpoint inCutset (c : ascii) (cutset : string) : bool :=
  match cutset with
  | EmptyString => false
  | String d cutset' => Ascii.eqb c d || inCutset c cutset'
  end.

(** [strings.TrimLeft]: drop the leading bytes that are in [cutset]. *)
Fixpoint TrimLeft (s cutset : string) : string :=
  match s with
  | EmptyString => EmptyString
  | String c s' => if inCutset c cutset then TrimLeft s' cutset else s
  end.

(** The number of ['/'] bytes of a string. *)
Fixpoint slashes (s : string) : nat :=
  match s with
  | EmptyString => 0
  | String c s' => (if Ascii.eqb c "/" then 1 else 0) + slashes s'
  end.

(** An occurrence of [sub] in [s] at position [i]. *)
Definition occurs_at (sub s : string) (i : nat) : Prop :=
  exists a b, s = a +:+ sub +:+ b /\ String.length a = i.

End GoStrings.

(** ** Go's [path] and [path/filepath] packages *)

Module GoPath.
Import GoStrings.

(** [strings.LastIndexByte]; [None] stands for [-1]. *)
Fixpoint LastIndexByte (s : string) (c : ascii) : option nat :=
  match s with
  | EmptyString => None
  | String a s' =>
      match LastIndexByte s' c with
      | Some i => Some (S i)
      | None => if Ascii.eqb a c then Some 0 else None
      end
  end.

(** [path.Split]: the path is cut immediately after its final slash. *)
Definition Split (p : string) : string * string :=
  match LastIndexByte p "/" with
  | None => (EmptyString, p)
  | Some i => (take (S i) p, drop (S i) p)
  end.

(** The output buffer of [path.Clean] is kept reversed: its head is the byte
    written last and its length is [out.w]. *)
Definition lazybuf := list ascii.

Fixpoint string_of_rev (acc : string) (out : lazybuf) : string :=
  match out with
  | [] => acc
  | c :: out' => string_of_rev (String c acc) out'
  end.

(** The inner [for] of the [..] case: [last] is [out.index(out.w)]. *)
Fixpoint backtrack (dotdot : nat) (last : ascii) (out : lazybuf) : lazybuf :=
  match out with
  | [] => []
  | c :: rest =>
      if (dotdot <? length out) && negb (Ascii.eqb last "/")
      then backtrack dotdot c rest
      else out
  end.

(** [r+k == n || path[r+k] == '/'], on the rest of the path from [r+k]. *)
Definition endOrSlash (p : string) : bool :=
  match p with
  | EmptyString => true
  | String c _ => Ascii.eqb c "/"
  end.

(** Copy one element: the bytes up to the next slash go to the buffer. *)
Fixpoint copyElement (p : string) (out : lazybuf) : string * lazybuf :=
  match p with
  | EmptyString => (p, out)
  | String c p' =>
      if Ascii.eqb c "/" then (p, out) else copyElement p' (c :: out)
  end.

(** The main loop of [path.Clean]; [p] is [path[r:]]. Every round consumes a
    byte, so [String.length p] rounds are enough. *)
Fixpoint Clean_loop (fuel : nat) (rooted : bool) (p : string)
    (out : lazybuf) (dotdot : nat) : lazybuf :=
  match fuel, p with
  | 0, _ => out
  | _, EmptyString => out
  | S fuel', String c p1 =>
      if Ascii.eqb c "/" then
        Clean_loop fuel' rooted p1 out dotdot
      else if Ascii.eqb c "." && endOrSlash p1 then
        Clean_loop fuel' rooted p1 out dotdot
      else if Ascii.eqb c "." &&
              match p1 with
              | String c1 p2 => Ascii.eqb c1 "." && endOrSlash p2
              | EmptyString => false
              end then
        let p2 := drop 1 p1 in
        match out with
        | last :: rest =>
            if dotdot <? length out then
              Clean_loop fuel' rooted p2 (backtrack dotdot last rest) dotdot
            else if negb rooted then
              let out2 := "."%char :: "."%char :: "/"%char :: out in
              Clean_loop fuel' rooted p2 out2 (length out2)
            else Clean_loop fuel' rooted p2 out dotdot
        | [] =>
            if negb rooted then
              let out2 := ["."%char; "."%char] in
              Clean_loop fuel' rooted p2 out2 (length out2)
            else Clean_loop fuel' rooted p2 out dotdot
        end
      else
        let out1 :=
          if (rooted && negb (length out =? 1)) ||
             (negb rooted && negb (length out =? 0))
          then "/"%char :: out else out in
        let '(rest, out2) := copyElement p out1 in
        Clean_loop fuel' rooted rest out2 dotdot
  end.

(** [path.Clean] *)
Definition Clean (p : string) : string :=
  match p with
  | EmptyString => "."
  | String c _ =>
      let rooted := Ascii.eqb c "/" in
      let out :=
        if rooted
        then Clean_loop (String.length p) rooted (drop 1 p) ["/"%char] 1
        else Clean_loop (String.length p) rooted p [] 0 in
      match out with
      | [] => "."
      | _ => string_of_rev EmptyString out
      end
  end.

(** The buffer that [path.Join] fills before cleaning it. *)
Fixpoint Join_buf (buf : string) (elem : list string) : string :=
  match elem with
  | [] => buf
  | e :: elem' =>
      if negb (bool_decide (buf = "")) || negb (bool_decide (e = "")) then
        Join_buf (if negb (bool_decide (buf = ""))
                  then buf +:+ "/" +:+ e else buf +:+ e) elem'
      else Join_buf buf elem'
  end.

(** [path.Join] *)
Definition Join (elem : list string) : string :=
  if bool_decide (sum_list (String.length <$> elem) = 0) then ""
  else Clean (Join_buf "" elem).

(** Strip the trailing slashes, as the first loop of [filepath.Base]. *)
Fixpoint stripTrailingSlashes (p : string) : string :=
  match p with
  | EmptyString => EmptyString
  | String c p' =>
      match stripTrailingSlashes p' with
      | EmptyString => if Ascii.eqb c "/" then EmptyString else String c EmptyString
      | q => String c q
      end
  end.

(** [filepath.Base] where the separator is ['/'] and volume names are
    empty. *)
Definition Base (p : string) : string :=
  if bool_decide (p = "") then "."
  else
    let p1 := stripTrailingSlashes p in
    let p2 := match LastIndexByte p1 "/" with
              | Some i => drop (S i) p1
              | None => p1
              end in
    if bool_decide (p2 = "") then "/" else p2.

End GoPath.

(** ** Data model *)

(** The manifest ([mapping.go]).  The field [Type] of a clip is spelled
    [Type_]. *)
Record clip := { Type_ : string; Path : string }.
Record sequence := { Clips : list clip }.
Record mapping := { Sequences : list sequence }.

(** A Go [error] value that is not [nil]: the sentinel [iterator.Done] or any
    other error, of which the engine only uses the message. *)
Inductive error :=
| Done
| Err (msg : string).

(** [err.Error()] *)
Definition Error (e : error) : string :=
  match e with
  | Done => "no more items in iterator"
  | Err msg => msg
  end.

(** What a fallible collaborator answers. *)
Inductive result (A : Type) :=
| Ok (a : A)
| Fail (e : error).
Arguments Ok {A} a.
Arguments Fail {A} e.

#[global] Instance error_eq_dec : EqDecision error.
Proof. solve_decision. Defined.

(** The types of the storage client the engine reads or builds. *)
Module storage.

Record ObjectAttrs := { Bucket : string; Name : string }.

Record Query := { Prefix : string; Delimiter : string }.

Record SignedURLOptions := {
  GoogleAccessID : string;
  PrivateKey : string;
  Method : string;
  Expires : Z
}.

(** One run of an object iterator: [Next] hands out [items] one by one with
    a [nil] error and then answers the error [stop]. *)
Record Listing := { items : list ObjectAttrs; stop : error }.

End storage.

(** [SignConfig] and the fields of [Config] that the engine reads
    ([config.go]); the field [SignConfig] of [Config] is spelled
    [signConfig], and a [nil] private key is [None]. *)
Record SignConfig := {
  Expiration : Z;
  AccessID : string;
  PrivateKey : option string
}.

Record Config := {
  BucketName : string;
  MapPrefix : string;
  ExtraResourcesToken : string;
  MapRegexFilter : string;
  MapRegexHDFilter : string;
  MapExtraPrefixes : list string;
  signConfig : SignConfig
}.

(** A parsed URL, of which the engine only asks the request URI. *)
Record URL := { RequestURI : string }.

(** The collaborators of the engine.
    - [Objects n q] is the run of the iterator that the bucket handle returns
      for the query [q] when [n] iterators were handed out before;
    - [regexp_Compile] answers the matcher of a pattern, or an error for a
      malformed one;
    - [SignedURL] is [storage.SignedURL], [url_Parse] is [url.Parse];
    - [signLatency bucket key] is the time that passes on the wall clock
      while the URL of that object is signed. *)
Record World := {
  Objects : nat -> storage.Query -> storage.Listing;
  regexp_Compile : string -> result (string -> bool);
  SignedURL : string -> string -> storage.SignedURLOptions -> result string;
  url_Parse : string -> result URL;
  signLatency : string -> string -> Z
}.

(** A request to the signer, with the reading of the clock when it was
    made. *)
Record SignCall := {
  call_bucket : string;
  call_key : string;
  call_opts : storage.SignedURLOptions;
  call_at : Z
}.

(** What the engine changes or observes outside of its own values: the wall
    clock, the queries sent to the lister and the requests sent to the
    signer, both oldest first. *)
Record State := {
  now : Z;
  listed : list storage.Query;
  signed : list SignCall
}.

(** ** The state monad of the engine *)

Definition M (A : Type) : Type := State -> A * State.

Definition ret {A} (a : A) : M A := fun st => (a, st).

Definition bind {A B} (c : M A) (k : A -> M B) : M B :=
  fun st => let '(a, st') := c st in k a st'.

Declare Scope engine_scope.
Delimit Scope engine_scope with engine.
Notation "'let*' p := c1 'in' c2" := (bind c1 (fun p => c2))
  (at level 10, p pattern, c1 at level 100, c2 at level 200) : engine_scope.
Open Scope engine_scope.

(** [time.Now()] *)
Definition time_Now : M Z := fun st => (now st, st).

(** [bucketHandle.Objects(ctx, q)] followed by the run of the iterator. *)
Definition bucket_Objects (W : World) (q : storage.Query) : M storage.Listing :=
  fun st =>
    (Objects W (length (listed st)) q,
     {| now := now st; listed := listed st ++ [q]; signed := signed st |}).

(** [storage.SignedURL(bucket, key, opts)] *)
Definition storage_SignedURL (W : World) (bucket key : string)
    (opts : storage.SignedURLOptions) : M (result string) :=
  fun st =>
    (SignedURL W bucket key opts,
     {| now := (now st + signLatency W bucket key)%Z;
        listed := listed st;
        signed := signed st ++
          [{| call_bucket := bucket; call_key := key;
              call_opts := opts; call_at := now st |}] |}).

(** [regexp.MatchString]: a pattern that does not compile answers [false]
    with an error. *)
Definition regexp_MatchString (W : World) (pattern s : string)
    : bool * option error :=
  match regexp_Compile W pattern with
  | Fail e => (false, Some e)
  | Ok re => (re s, None)
  end.

(** ** [config.go] *)

(** [SignConfig.Options]: no options when signing is disabled. *)
Definition Options (c : SignConfig)
    : M (option storage.SignedURLOptions * option error) :=
  if bool_decide (AccessID c = "") then ret (None, None)
  else match PrivateKey c with
       | None => ret (None, None)
       | Some key =>
           let* t := time_Now in
           ret (Some {| storage.Method := "GET";
                        storage.GoogleAccessID := AccessID c;
                        storage.PrivateKey := key;
                        storage.Expires := (t + Expiration c)%Z |}, None)
       end.

(** ** [mapping.go] *)

Definition maxTry : nat := 5.

(** The sequence of a listed object or of an extra resource. *)
Definition sourceSequence (path : string) : sequence :=
  {| Clips := [{| Type_ := "source"; Path := path |}] |}.

(** [appendExtraResources], on the parsed query of the request. *)
Definition Values_Get (v : gmap string (list string)) (key : string) : string :=
  match v !! key with
  | Some (x :: _) => x
  | _ => ""
  end.

Record Request := {
  Method : string;
  URL_Path : string;
  URL_Query : gmap string (list string)
}.

Definition appendExtraResources (r : Request) (config : Config) (m : mapping)
    : mapping :=
  let resources := Values_Get (URL_Query r) (ExtraResourcesToken config) in
  fold_left
    (fun m resource =>
       if bool_decide (resource <> "")
       then {| Sequences := Sequences m ++ [sourceSequence resource] |}
       else m)
    (GoStrings.Split resources ",") m.

(** [getPrefixes] *)
Definition getPrefixes (originalPrefix : string) (config : Config)
    : list string :=
  let prefixes := [originalPrefix] in
  let '(_, lastPart) := GoPath.Split originalPrefix in
  fold_left (fun prefixes p => prefixes ++ [GoPath.Join [p; lastPart]])
    (MapExtraPrefixes config) prefixes.

(** The inner loop of [expandPrefix], over the objects that the iterator
    hands out before it stops. *)
Fixpoint collect (W : World) (filterRegex : string)
    (objs : list storage.ObjectAttrs) (sequences : list sequence)
    : list sequence :=
  match objs with
  | [] => sequences
  | obj :: objs' =>
      let filename := GoPath.Base (storage.Name obj) in
      let '(matched, _) := regexp_MatchString W filterRegex filename in
      collect W filterRegex objs'
        (if matched
         then sequences ++
              [sourceSequence
                 ("/" +:+ storage.Bucket obj +:+ "/" +:+ storage.Name obj)]
         else sequences)
  end.

(** The outer loop of [expandPrefix]; [n] is [maxTry - i] and [err] the
    error of the attempt before. *)
Fixpoint attempts (W : World) (n : nat) (prefix filterRegex : string)
    (err : option error) : M (list sequence * option error) :=
  match n with
  | 0 => ret ([], err)
  | S n' =>
      let* it := bucket_Objects W
              {| storage.Prefix := prefix; storage.Delimiter := "/" |} in
      let sequences := collect W filterRegex (storage.items it) [] in
      match storage.stop it with
      | Done => ret (sequences, None)
      | e => attempts W n' prefix filterRegex (Some e)
      end
  end.

(** [expandPrefix] *)
Definition expandPrefix (W : World) (prefix : string) (config : Config)
    : M (list sequence * option error) :=
  let '(filterRegex, prefix) :=
    if GoStrings.Contains prefix "__HD"
    then (MapRegexHDFilter config, GoStrings.Replace prefix "__HD" "" 1)
    else (MapRegexFilter config, prefix) in
  attempts W maxTry prefix filterRegex None.

(** The loop of [getPrefixMapping]. *)
Fixpoint getPrefixMapping_loop (W : World) (config : Config)
    (prefixes : list string) (m : mapping) : M (mapping * option error) :=
  match prefixes with
  | [] => ret (m, None)
  | p :: prefixes' =>
      let* (sequences, err) := expandPrefix W p config in
      match err with
      | Some e => ret (m, Some e)
      | None =>
          getPrefixMapping_loop W config prefixes'
            {| Sequences := Sequences m ++ sequences |}
      end
  end.

(** [getPrefixMapping] *)
Definition getPrefixMapping (W : World) (prefix : string) (config : Config)
    : M (mapping * option error) :=
  getPrefixMapping_loop W config (getPrefixes prefix config)
    {| Sequences := [] |}.

(** [signedPath] *)
Definition signedPath (W : World) (path : string)
    (opts : storage.SignedURLOptions) : M (string * option error) :=
  match GoStrings.SplitN path "/" 3 with
  | [_; bucketName; objectKey] =>
      let* r := storage_SignedURL W bucketName objectKey opts in
      match r with
      | Fail e => ret ("", Some e)
      | Ok rawSignedURL =>
          match url_Parse W rawSignedURL with
          | Fail e => ret ("", Some e)
          | Ok signedURL => ret (RequestURI signedURL, None)
          end
      end
  | _ => ret (path, None)
  end.

(** The inner loop of [signedURLs]: [n] clips are left, [c] is the index of
    the next one.  The clips are overwritten in place, so the array reached
    so far is returned on an error too. *)
Fixpoint signClips (W : World) (opts : storage.SignedURLOptions)
    (n c : nat) (clips : list clip) : M (list clip * option error) :=
  match n with
  | 0 => ret (clips, None)
  | S n' =>
      match clips !! c with
      | None => ret (clips, None)
      | Some cl =>
          let* (path, err) := signedPath W (Path cl) opts in
          match err with
          | Some e => ret (clips, Some e)
          | None =>
              signClips W opts n' (S c)
                (<[c := {| Type_ := Type_ cl; Path := path |}]> clips)
          end
      end
  end.

(** The outer loop of [signedURLs].  [seq.Clips] shares its array with
    [seqs[s].Clips], and [seqs] shares its array with [m.Sequences]: what the
    inner loop wrote is in the mapping when an error returns it. *)
Fixpoint signSequences (W : World) (opts : storage.SignedURLOptions)
    (n s : nat) (seqs : list sequence) : M (list sequence * option error) :=
  match n with
  | 0 => ret (seqs, None)
  | S n' =>
      match seqs !! s with
      | None => ret (seqs, None)
      | Some sq =>
          let* (clips, err) := signClips W opts (length (Clips sq)) 0 (Clips sq) in
          let seqs' := <[s := {| Clips := clips |}]> seqs in
          match err with
          | Some e => ret (seqs', Some e)
          | None => signSequences W opts n' (S s) seqs'
          end
      end
  end.

(** [signedURLs] *)
Definition signedURLs (W : World) (config : Config) (m : mapping)
    : M (mapping * option error) :=
  let* (opts, err) := Options (signConfig config) in
  match err, opts with
  | Some e, _ => ret (m, Some e)
  | None, None => ret (m, None)
  | None, Some opts =>
      let* (seqs, err) := signSequences W opts (length (Sequences m)) 0
                        (Sequences m) in
      ret ({| Sequences := seqs |}, err)
  end.

(** What the handler writes to the response: [http.Error] writes a line of
    text, [json.NewEncoder(w).Encode(m)] the JSON document of [m]. *)
Inductive body :=
| NoBody
| Text (s : string)
| JSON (m : mapping).

Record Response := {
  StatusCode : nat;
  ContentType : string;
  Body : body
}.

Definition newline : string := String (ascii_of_nat 10) EmptyString.

(** [http.Error(w, msg, code)] *)
Definition http_Error (msg : string) (code : nat) : Response :=
  {| StatusCode := code;
     ContentType := "text/plain; charset=utf-8";
     Body := Text (msg +:+ newline) |}.

(** The handler that [getMapHandler] returns. *)
Definition getMapHandler (W : World) (c : Config) (r : Request) : M Response :=
  if bool_decide (Method r <> "GET") then
    ret (http_Error "method not allowed" 405)
  else
    let prefix := GoStrings.TrimLeft (URL_Path r) "/" in
    if bool_decide (prefix = "") then
      ret (http_Error "prefix cannot be empty" 400)
    else
      let* (m, err) := getPrefixMapping W prefix c in
      match err with
      | Some (Err msg) => ret (http_Error (Error (Err msg)) 500)
      | _ =>
          let m := appendExtraResources r c m in
          let* (m, err) := signedURLs W c m in
          match err with
          | Some e => ret (http_Error (Error e) 500)
          | None =>
              ret {| StatusCode := 200;
                     ContentType := "application/json";
                     Body := JSON m |}
          end
      end.

(** ** [server.go] *)

(** The handler that [getHandler] returns. *)
Definition getHandler (W : World) (c : Config) (r : Request) : M Response :=
  if GoStrings.HasPrefix (URL_Path r) (MapPrefix c) then
    getMapHandler W c
      {| Method := Method r;
         URL_Path := GoStrings.Replace (URL_Path r) (MapPrefix c) "" 1;
         URL_Query := URL_Query r |}
  else if bool_decide (URL_Path r = "/") then
    ret {| StatusCode := 200; ContentType := ""; Body := NoBody |}
  else ret (http_Error "not found" 404).

(** ** [mapping.go] before URL signing *)

(** The handler that [getMapHandler] returns in the earlier version of
    [mapping.go], which has no signing stage; its other functions are those
    above. *)
Module Earlier.

Definition getMapHandler (W : World) (c : Config) (r : Request) : M Response :=
  if bool_decide (Method r <> "GET") then
    ret (http_Error "method not allowed" 405)
  else
    let prefix := GoStrings.TrimLeft (URL_Path r) "/" in
    if bool_decide (prefix = "") then
      ret (http_Error "prefix cannot be empty" 400)
    else
      let* (m, err) := getPrefixMapping W prefix c in
      match err with
      | Some (Err msg) => ret (http_Error (Error (Err msg)) 500)
      | _ =>
          let m := appendExtraResources r c m in
          ret {| StatusCode := 200;
                 ContentType := "application/json";
                 Body := JSON m |}
      end.

End Earlier.

(** ** Vocabulary of the specification *)

(** The filter selector (specification, 4.2): the prefix that is sent to the
    lister and the pattern that is applied, as [expandPrefix] chooses
    them. *)
Definition listerPrefix (prefix : string) : string :=
  if GoStrings.Contains prefix "__HD"
  then GoStrings.Replace prefix "__HD" "" 1
  else prefix.

Definition filterFor (config : Config) (prefix : string) : string :=
  if GoStrings.Contains prefix "__HD"
  then MapRegexHDFilter config
  else MapRegexFilter config.

Definition listerQuery (prefix : string) : storage.Query :=
  {| storage.Prefix := listerPrefix prefix; storage.Delimiter := "/" |}.

(** Does the base filename of an object match a pattern? *)
Definition matches (W : World) (pattern : string) (obj : storage.ObjectAttrs)
    : bool :=
  fst (regexp_MatchString W pattern (GoPath.Base (storage.Name obj))).

(** The storage locator of a listed object. *)
Definition locator (obj : storage.ObjectAttrs) : string :=
  "/" +:+ storage.Bucket obj +:+ "/" +:+ storage.Name obj.

(** The sequences of one run of a listing: one per matching object, in
    listing order. *)
Definition filtered (W : World) (pattern : string)
    (objs : list storage.ObjectAttrs) : list sequence :=
  (fun obj => sourceSequence (locator obj)) <$>
    List.filter (matches W pattern) objs.

(** The expansions of a list of physical prefixes, one after the other. *)
Fixpoint expansions (W : World) (config : Config) (prefixes : list string)
    (st : State) : list (list sequence * option error) :=
  match prefixes with
  | [] => []
  | p :: prefixes' =>
      let '(r, st') := expandPrefix W p config st in
      r :: expansions W config prefixes' st'
  end.

(** The sequences of the extra resources of a request (specification,
    4.5). *)
Definition extraSequences (r : Request) (config : Config) : list sequence :=
  sourceSequence <$>
    List.filter (fun token => negb (bool_decide (token = "")))
      (GoStrings.Split (Values_Get (URL_Query r) (ExtraResourcesToken config))
         ",").

(** The signing options of a request whose signing stage starts at the
    time [t]. *)
Definition optionsAt (c : SignConfig) (key : string) (t : Z)
    : storage.SignedURLOptions :=
  {| storage.Method := "GET";
     storage.GoogleAccessID := AccessID c;
     storage.PrivateKey := key;
     storage.Expires := (t + Expiration c)%Z |}.

(** What the signing stage makes of a path: a path with fewer than two
    slashes is kept; otherwise the text between the first two slashes is the
    bucket and the text after the second slash is the key of the signed
    URL. *)
Inductive signedAs (W : World) (opts : storage.SignedURLOptions)
    : string -> string -> Prop :=
| signedAs_kept (path : string) :
    GoStrings.slashes path < 2 ->
    signedAs W opts path path
| signedAs_signed (a bucket key rawSignedURL : string) (u : URL) :
    GoStrings.slashes a = 0 ->
    GoStrings.slashes bucket = 0 ->
    SignedURL W bucket key opts = Ok rawSignedURL ->
    url_Parse W rawSignedURL = Ok u ->
    signedAs W opts (a +:+ "/" +:+ bucket +:+ "/" +:+ key) (RequestURI u).

(** A clip after the signing stage: the type is kept, the path is signed. *)
Definition signedClip (W : World) (opts : storage.SignedURLOptions)
    (cl cl' : clip) : Prop :=
  Type_ cl' = Type_ cl /\ signedAs W opts (Path cl) (Path cl').



(** The storage-locator shape [/<bucket>/<key>] of the specification. *)
Definition locatorShape (path bucket key : string) : Prop :=
  path = "/" +:+ bucket +:+ "/" +:+ key /\ GoStrings.slashes bucket = 0.

(** The path of a clip cannot be signed: the signer or the parser of its
    URL fails with the error [e]. *)
Definition signFails (W : World) (opts : storage.SignedURLOptions)
    (path : string) (e : error) : Prop :=
  exists a bucket key,
    path = a +:+ "/" +:+ bucket +:+ "/" +:+ key /\
    GoStrings.slashes a = 0 /\ GoStrings.slashes bucket = 0 /\
    (SignedURL W bucket key opts = Fail e \/
     exists rawSignedURL,
       SignedURL W bucket key opts = Ok rawSignedURL /\
       url_Parse W rawSignedURL = Fail e).

(** The paths of all clips of a manifest, in order. *)
Definition clipPaths (seqs : list sequence) : list string :=
  concat ((fun sq => Path <$> Clips sq) <$> seqs).

(** ** Paths made of plain segments *)

(** A plain segment of a path: not empty, without a slash, and not starting
    with a dot. *)
Definition plainSegment (s : string) : Prop :=
  exists c s', s = String c s' /\ c <> "."%char /\ GoStrings.slashes s = 0.

(** [n] slashes. *)
Fixpoint slashRun (n : nat) : string :=
  match n with
  | 0 => EmptyString
  | S n' => String "/" (slashRun n')
  end.

(** [strings.Join(segs, "/")] *)
Fixpoint joinSegments (segs : list string) : string :=
  match segs with
  | [] => EmptyString
  | [s] => s
  | s :: segs' => s +:+ "/" +:+ joinSegments segs'
  end.

(** Segments that are each followed by one slash and [n] more, before
    [rest]. *)
Fixpoint spacedSegments (items : list (string * nat)) (rest : string)
    : string :=
  match items with
  | [] => rest
  | (seg, n) :: items' =>
      seg +:+ slashRun (S n) +:+ spacedSegments items' rest
  end.

(** The bytes of [s] pushed on a buffer. *)
Fixpoint pushBytes (s : string) (out : GoPath.lazybuf) : GoPath.lazybuf :=
  match s with
  | EmptyString => out
  | String c s' => pushBytes s' (c :: out)
  end.

(** The slash that [path.Clean] writes before an element that is not the
    first one of a relative path. *)
Definition pushSlash (out : GoPath.lazybuf) : GoPath.lazybuf :=
  match out with
  | [] => []
  | _ => "/"%char :: out
  end.

(** ** The loops, told by their lists *)

(** The run of the iterator at the [j]-th attempt of an expansion that
    starts in the state [st], and the state after [k] attempts. *)
Definition attemptRun (W : World) (st : State) (q : storage.Query) (j : nat)
    : storage.Listing :=
  Objects W (length (listed st) + j) q.

Definition afterAttempts (st : State) (q : storage.Query) (k : nat) : State :=
  {| now := now st; listed := listed st ++ replicate k q; signed := signed st |}.

(** The inner and the outer loop of [signedURLs] by recursion on the clips
    and on the sequences that are left. *)
Fixpoint signList (W : World) (opts : storage.SignedURLOptions)
    (clips : list clip) : M (list clip * option error) :=
  match clips with
  | [] => ret ([], None)
  | cl :: clips' =>
      let* (path, err) := signedPath W (Path cl) opts in
      match err with
      | Some e => ret (clips, Some e)
      | None =>
          let* (clips'', err) := signList W opts clips' in
          ret ({| Type_ := Type_ cl; Path := path |} :: clips'', err)
      end
  end.

Fixpoint signSeqList (W : World) (opts : storage.SignedURLOptions)
    (seqs : list sequence) : M (list sequence * option error) :=
  match seqs with
  | [] => ret ([], None)
  | sq :: seqs' =>
      let* (clips, err) := signList W opts (Clips sq) in
      match err with
      | Some e => ret ({| Clips := clips |} :: seqs', Some e)
      | None =>
          let* (seqs'', err) := signSeqList W opts seqs' in
          ret ({| Clips := clips |} :: seqs'', err)
      end
  end.

(** What one call of the signer leaves in the state. *)
Definition signedCall (W : World) (opts : storage.SignedURLOptions)
    (st : State) (bucket key : string) : State :=
  snd (storage_SignedURL W bucket key opts st).

(** Between the states [st] and [st'] nothing was listed, and every request
    that reached the signer carried the options [opts]. *)
Definition signsWith (opts : storage.SignedURLOptions) (st st' : State)
    : Prop :=
  listed st' = listed st /\
  exists calls, signed st' = signed st ++ calls /\
    Forall (fun call => call_opts call = opts) calls.


(** ** The claims of the specification that the code does not keep *)

(** The requests that the signing stage of one request sends to the
    signer. *)
Definition signingCalls (W : World) (config : Config) (m : mapping)
    (st : State) : list SignCall :=
  drop (length (signed st)) (signed (snd (signedURLs W config m st))).


(** "A path of the shape [/<bucket>/<key>] is replaced by the request URI of
    its signed URL, any other path is passed through unchanged." *)
Definition signsLocatorsOnly (W : World) (opts : storage.SignedURLOptions)
    (cl cl' : clip) : Prop :=
  (forall bucket key,
     locatorShape (Path cl) bucket key ->
     exists rawSignedURL u,
       SignedURL W bucket key opts = Ok rawSignedURL /\
       url_Parse W rawSignedURL = Ok u /\ Path cl' = RequestURI u) /\
  ((~ exists bucket key, locatorShape (Path cl) bucket key) ->
   Path cl' = Path cl).

(** "Exactly three slash-delimited segments: the empty segment, the bucket
    name and the object key." *)
Definition threeSegments (path : string) : Prop :=
  exists obj,
    GoStrings.Split path "/" = [""; storage.Bucket obj; storage.Name obj].

(** "Each alternate physical prefix is the alternate-location prefix with
    any trailing slash removed." *)
Definition alternatesTrimmed (original : string) (config : Config) : Prop :=
  getPrefixes original config =
  original :: (GoPath.stripTrailingSlashes <$> MapExtraPrefixes config).

(** ** Sample collaborators and requests *)

Module Sample.

Definition config : Config :=
  {| BucketName := "media";
     MapPrefix := "/map/";
     ExtraResourcesToken := "extra";
     MapRegexFilter := "p.mp4";
     MapRegexHDFilter := "720p.mp4";
     MapExtraPrefixes := ["subtitles/"];
     signConfig := {| Expiration := 1200; AccessID := ""; PrivateKey := None |}
  |}.

Definition signingConfig : Config :=
  {| BucketName := "media";
     MapPrefix := "/map/";
     ExtraResourcesToken := "extra";
     MapRegexFilter := "p.mp4";
     MapRegexHDFilter := "720p.mp4";
     MapExtraPrefixes := [];
     signConfig :=
       {| Expiration := 1200; AccessID := "access";
          PrivateKey := Some "secret!" |} |}.

Definition object (name : string) : storage.ObjectAttrs :=
  {| storage.Bucket := "media"; storage.Name := name |}.

Definition videos : list storage.ObjectAttrs :=
  [object "foo/bar/asset_360p.mp4"; object "foo/bar/asset_720p.mp4";
   object "foo/bar/asset_notes.txt"].

Definition subtitles : list storage.ObjectAttrs :=
  [object "subtitles/asset_360p.mp4"].

Definition listing (q : storage.Query) : list storage.ObjectAttrs :=
  if bool_decide (storage.Prefix q = "foo/bar/asset") then videos
  else if bool_decide (storage.Prefix q = "subtitles/asset") then subtitles
  else [].

(** A pattern is malformed when it is an open parenthesis, and is matched
    as a plain substring otherwise. *)
Definition compile (pattern : string) : result (string -> bool) :=
  if bool_decide (pattern = "(")
  then Fail (Err "error parsing regexp: missing closing )")
  else Ok (fun s => GoStrings.Contains s pattern).

(** The signer refuses the object key [locked]. *)
Definition sign (bucket key : string) (opts : storage.SignedURLOptions)
    : result string :=
  if bool_decide (key = "locked") then Fail (Err "storage: cannot sign")
  else Ok ("https://storage.googleapis.com/" +:+ bucket +:+ "/" +:+ key +:+
           "?GoogleAccessId=" +:+ storage.GoogleAccessID opts +:+
           "&Signature=c2ln").

Definition parse (rawURL : string) : result URL :=
  Ok {| RequestURI := GoStrings.drop 30 rawURL |}.

(** A lister whose first [failures] runs break off after one object. *)
Definition flaky (failures : nat) : World :=
  {| Objects := fun n q =>
       if n <? failures
       then {| storage.items := firstn 1 (listing q);
               storage.stop := Err "connection reset" |}
       else {| storage.items := listing q; storage.stop := Done |};
     regexp_Compile := compile;
     SignedURL := sign;
     url_Parse := parse;
     signLatency := fun _ _ => 1%Z |}.

Definition world : World := flaky 0.

Definition start : State := {| now := 1000; listed := []; signed := [] |}.

Definition request (path : string) (extra : option string) : Request :=
  {| Method := "GET";
     URL_Path := path;
     URL_Query := match extra with
                  | Some v => {[ "extra" := [v] ]}
                  | None => ∅
                  end |}.

(** A manifest of two listed objects, and one with an extra resource whose
    path has two slashes and does not start with one. *)
Definition twoClips : mapping :=
  {| Sequences :=
       [sourceSequence "/media/foo/bar/asset_360p.mp4";
        sourceSequence "/media/foo/bar/asset_720p.mp4"] |}.

Definition injected : mapping :=
  {| Sequences :=
       [sourceSequence "/media/foo/bar/asset_360p.mp4";
        sourceSequence "extra/res/x.mp4"] |}.

Definition options : storage.SignedURLOptions :=
  optionsAt (signConfig signingConfig) "secret!" (now start).

(** A configuration whose alternate location is written with two
    slashes. *)
Definition doubledSlash : Config :=
  {| BucketName := "media";
     MapPrefix := "/map/";
     ExtraResourcesToken := "extra";
     MapRegexFilter := "p.mp4";
     MapRegexHDFilter := "720p.mp4";
     MapExtraPrefixes := ["subtitles//en/"];
     signConfig := {| Expiration := 1200; AccessID := ""; PrivateKey := None |}
  |}.


End Sample.

(** ** Vocabulary of the further properties *)

(** The state after the expansions of a list of physical prefixes, one
    after the other. *)
Fixpoint afterExpansions (W : World) (config : Config)
    (prefixes : list string) (st : State) : State :=
  match prefixes with
  | [] => st
  | p :: prefixes' =>
      afterExpansions W config prefixes' (snd (expandPrefix W p config st))
  end.

(** The clips of two arrays agree from the clip [cl] on, which is the first
    that cannot be signed, and the clips before it are signed. *)
Definition signedUpTo (W : World) (opts : storage.SignedURLOptions)
    (e : error) (clips clips' : list clip) : Prop :=
  exists before before' cl rest,
    clips = before ++ cl :: rest /\
    clips' = before' ++ cl :: rest /\
    Forall2 (signedClip W opts) before before' /\
    signFails W opts (Path cl) e.

(** ** More sample configurations and collaborators *)

Module Cases.

(** The configuration of a deployment that sets the bucket name only. *)
Definition defaults : Config :=
  {| BucketName := "media";
     MapPrefix := "";
     ExtraResourcesToken := "";
     MapRegexFilter := "";
     MapRegexHDFilter := "";
     MapExtraPrefixes := [];
     signConfig := {| Expiration := 1200; AccessID := ""; PrivateKey := None |}
  |}.

(** A manifest whose second sequence holds a clip that the sample signer
    refuses, between clips that it signs. *)
Definition lockedSecond : mapping :=
  {| Sequences :=
       [sourceSequence "/media/a.mp4";
        {| Clips := [{| Type_ := "source"; Path := "/media/b.mp4" |};
                     {| Type_ := "source"; Path := "/media/locked" |};
                     {| Type_ := "source"; Path := "/media/c.mp4" |}] |};
        sourceSequence "/media/d.mp4"] |}.

(** A lister that answers the primary location and fails at the alternate
    ones. *)
Definition alternateDown : World :=
  {| Objects := fun n q =>
       if bool_decide (storage.Prefix q = "foo/bar/asset")
       then {| storage.items := Sample.videos; storage.stop := Done |}
       else {| storage.items := []; storage.stop := Err "backend error" |};
     regexp_Compile := Sample.compile;
     SignedURL := Sample.sign;
     url_Parse := Sample.parse;
     signLatency := fun _ _ => 1%Z |}.

(** Two alternate locations. *)
Definition twoAlternates : Config :=
  {| BucketName := "media";
     MapPrefix := "/map/";
     ExtraResourcesToken := "extra";
     MapRegexFilter := "p.mp4";
     MapRegexHDFilter := "720p.mp4";
     MapExtraPrefixes := ["subtitles/"; "mp4s/"];
     signConfig := {| Expiration := 1200; AccessID := ""; PrivateKey := None |}
  |}.

End Cases.

(** * Facts about the string and path functions *)

Module StringFacts.
Import GoStrings.

#[local] Arguments String.append : simpl nomatch.

Lemma append_nil_r s : s +:+ "" = s.
Proof. induction s; simpl; congruence. Qed.

Lemma append_assoc s1 s2 s3 : (s1 +:+ s2) +:+ s3 = s1 +:+ (s2 +:+ s3).
Proof. induction s1; simpl; congruence. Qed.

Lemma length_append s1 s2 :
  String.length (s1 +:+ s2) = String.length s1 + String.length s2.
Proof. induction s1; simpl; congruence. Qed.

Lemma take_drop n s : take n s +:+ drop n s = s.
Proof. revert s; induction n; intros [|c s]; simpl; try rewrite IHn; done. Qed.

Lemma take_append s1 s2 : take (String.length s1) (s1 +:+ s2) = s1.
Proof. induction s1; simpl; [by destruct s2|congruence]. Qed.

Lemma drop_append s1 s2 : drop (String.length s1) (s1 +:+ s2) = s2.
Proof. induction s1; simpl; done. Qed.

Lemma drop_drop n k s : drop n (drop k s) = drop (k + n) s.
Proof.
  revert s; induction k; intros s; simpl; [done|].
  destruct s; simpl; [by destruct n|]. apply IHk.
Qed.

Lemma append_inv_head s s1 s2 : s +:+ s1 = s +:+ s2 -> s1 = s2.
Proof. induction s; simpl; intros H; [done|]. injection H; auto. Qed.

Lemma prefix_append sub s : String.prefix sub (sub +:+ s) = true.
Proof.
  induction sub as [|c sub IH]; simpl; [by destruct s|].
  destruct (ascii_dec c c); [done|congruence].
Qed.

Lemma prefix_inv sub s :
  String.prefix sub s = true -> s = sub +:+ drop (String.length sub) s.
Proof.
  revert s; induction sub as [|c sub IH]; intros s H; [done|].
  destruct s as [|d s]; [done|]. simpl in *.
  destruct (ascii_dec c d); [subst|done]. f_equal. by apply IH.
Qed.

Lemma occurs_at_0 sub s : occurs_at sub s 0 <-> String.prefix sub s = true.
Proof.
  split.
  - intros (a & b & -> & Ha). destruct a; [|done]. simpl. apply prefix_append.
  - intros H. exists "", (drop (String.length sub) s). split; [|done].
    by apply prefix_inv.
Qed.

Lemma occurs_at_S sub c s i :
  occurs_at sub (String c s) (S i) <-> occurs_at sub s i.
Proof.
  split.
  - intros (a & b & E & Ha). destruct a as [|d a]; [done|].
    simpl in *. injection E as -> ->. exists a, b. split; [done|lia].
  - intros (a & b & -> & Ha). exists (String c a), b. simpl. split; [done|lia].
Qed.

Lemma Index_nil sub :
  Index "" sub = if String.prefix sub "" then Some 0 else None.
Proof. done. Qed.

Lemma Index_cons c s sub :
  Index (String c s) sub =
  if String.prefix sub (String c s) then Some 0 else S <$> Index s sub.
Proof. done. Qed.

Lemma Index_Some s sub i :
  Index s sub = Some i ->
  occurs_at sub s i /\ forall j, j < i -> ~ occurs_at sub s j.
Proof.
  revert i; induction s as [|c s IH]; intros i.
  - rewrite Index_nil. destruct (String.prefix sub "") eqn:E; [|done].
    intros [= <-]. split; [by apply occurs_at_0|lia].
  - rewrite Index_cons. destruct (String.prefix sub (String c s)) eqn:E.
    + intros [= <-]. split; [by apply occurs_at_0|lia].
    + destruct (Index s sub) as [k|] eqn:Ek; simpl; [|done].
      intros [= <-]. destruct (IH k eq_refl) as [H1 H2]. split.
      * by apply occurs_at_S.
      * intros [|j] Hj.
        -- rewrite occurs_at_0. congruence.
        -- rewrite occurs_at_S. apply H2. lia.
Qed.

Lemma Index_None s sub i : Index s sub = None -> ~ occurs_at sub s i.
Proof.
  revert i; induction s as [|c s IH]; intros i.
  - rewrite Index_nil. destruct (String.prefix sub "") eqn:E; [done|].
    intros _ (a & b & Hab & Ha). destruct a, sub; done.
  - rewrite Index_cons. destruct (String.prefix sub (String c s)) eqn:E; [done|].
    destruct (Index s sub) eqn:Ek; [done|]. intros _.
    destruct i as [|i].
    + rewrite occurs_at_0. congruence.
    + rewrite occurs_at_S. by apply IH.
Qed.

Lemma Index_occurs s sub i :
  occurs_at sub s i -> exists k, Index s sub = Some k /\ k <= i.
Proof.
  intros H. destruct (Index s sub) as [k|] eqn:E.
  - exists k. split; [done|]. destruct (Index_Some _ _ _ E) as [_ H2].
    destruct (decide (k <= i)); [done|]. exfalso. apply (H2 i); [lia|done].
  - by apply Index_None with (i := i) in E.
Qed.

Lemma Index_Some_split s sub i :
  Index s sub = Some i ->
  s = take i s +:+ sub +:+ drop (i + String.length sub) s.
Proof.
  intros H. destruct (Index_Some _ _ _ H) as [(a & b & -> & <-) _].
  rewrite take_append. rewrite <- drop_drop, drop_append, drop_append. done.
Qed.

Lemma slashes_append a b : slashes (a +:+ b) = slashes a + slashes b.
Proof. induction a; simpl; lia. Qed.

Lemma slashes_le_length s : slashes s <= String.length s.
Proof. induction s as [|c s IH]; simpl; [lia|]. destruct (Ascii.eqb c "/"); lia. Qed.

Lemma prefix_slash c s :
  String.prefix "/" (String c s) = Ascii.eqb c "/".
Proof.
  cbv [String.prefix]. destruct (ascii_dec "/" c) as [<-|Hne].
  - by destruct s.
  - symmetry. apply Ascii.eqb_neq. congruence.
Qed.

(** The first slash of a string: where it is, and what is around it. *)
Lemma Index_slash_None s : Index s "/" = None <-> slashes s = 0.
Proof.
  induction s as [|c s IH]; [done|].
  rewrite Index_cons, prefix_slash. simpl.
  destruct (Ascii.eqb c "/"); [done|].
  destruct (Index s "/"); simpl; split; try done.
  - intros H. apply IH in H. done.
  - intros _. by apply IH.
Qed.

Lemma Index_slash_Some s m :
  Index s "/" = Some m ->
  s = take m s +:+ "/" +:+ drop (S m) s /\ slashes (take m s) = 0.
Proof.
  revert m; induction s as [|c s IH]; intros m; [done|].
  rewrite Index_cons, prefix_slash.
  destruct (Ascii.eqb c "/") eqn:E.
  - intros [= <-]. apply Ascii.eqb_eq in E as ->. done.
  - destruct (Index s "/") as [k|]; simpl; [|done].
    intros [= <-]. destruct (IH k eq_refl) as [H1 H2]. simpl.
    rewrite E. split; [by f_equal|done].
Qed.

Lemma Index_slash_first a b :
  slashes a = 0 -> Index (a +:+ "/" +:+ b) "/" = Some (String.length a).
Proof.
  induction a as [|c a IH]; intros H.
  - change ("" +:+ "/" +:+ b) with (String "/" b).
    by rewrite Index_cons, prefix_slash.
  - change (String c a +:+ "/" +:+ b) with (String c (a +:+ "/" +:+ b)).
    rewrite Index_cons, prefix_slash. simpl in H.
    destruct (Ascii.eqb c "/"); [done|]. by rewrite IH.
Qed.

(** [genSplit_loop] never makes more pieces than there are slashes, plus
    one. *)
Lemma genSplit_loop_length n s :
  length (genSplit_loop n s "/") <= S (slashes s).
Proof.
  revert s; induction n as [|n IH]; intros s; simpl; [lia|].
  destruct (Index s "/") as [m|] eqn:E; simpl; [|lia].
  apply Index_slash_Some in E as [E1 E2]. specialize (IH (drop (m + 1) s)).
  replace (m + 1) with (S m) in * by lia.
  assert (slashes s = S (slashes (drop (S m) s))) as ->; [|lia].
  rewrite E1 at 1. rewrite !slashes_append, E2. done.
Qed.

(** The cut of a path that [signedPath] makes. *)
Lemma SplitN3_locator a b k :
  slashes a = 0 -> slashes b = 0 ->
  SplitN (a +:+ "/" +:+ b +:+ "/" +:+ k) "/" 3 = [a; b; k].
Proof.
  intros Ha Hb. unfold SplitN, genSplit.
  rewrite (bool_decide_eq_false_2 (3 = 0)%Z) by lia.
  rewrite (bool_decide_eq_false_2 ("/" = "")) by done.
  rewrite (bool_decide_eq_false_2 (3 < 0)%Z) by lia.
  rewrite bool_decide_eq_false_2.
  2: { rewrite !length_append. simpl. lia. }
  change (pred (Z.to_nat 3)) with 2. cbn [genSplit_loop].
  rewrite Index_slash_first by done.
  rewrite take_append.
  replace (String.length a + String.length "/") with
    (String.length (a +:+ "/")) by (rewrite length_append; done).
  rewrite <- append_assoc, drop_append.
  rewrite Index_slash_first by done.
  rewrite take_append.
  replace (String.length b + String.length "/") with
    (String.length (b +:+ "/")) by (rewrite length_append; done).
  rewrite <- append_assoc, drop_append. done.
Qed.

Lemma SplitN3_cases s :
  (exists a b k, SplitN s "/" 3 = [a; b; k] /\
     s = a +:+ "/" +:+ b +:+ "/" +:+ k /\ slashes a = 0 /\ slashes b = 0)
  \/ (length (SplitN s "/" 3) < 3 /\ slashes s < 2).
Proof.
  unfold SplitN, genSplit.
  rewrite (bool_decide_eq_false_2 (3 = 0)%Z) by lia.
  rewrite (bool_decide_eq_false_2 ("/" = "")) by done.
  rewrite (bool_decide_eq_false_2 (3 < 0)%Z) by lia.
  change (Z.to_nat 3) with 3.
  case_bool_decide as Hlen.
  - right. pose proof (slashes_le_length s).
    pose proof (genSplit_loop_length (pred (S (String.length s))) s). lia.
  - change (pred 3) with 2. cbn [genSplit_loop].
    destruct (Index s "/") as [m|] eqn:E1.
    2: { right. apply Index_slash_None in E1. simpl. lia. }
    apply Index_slash_Some in E1 as [E1 H1].
    replace (m + String.length "/") with (S m) by (simpl; lia).
    destruct (Index (drop (S m) s) "/") as [m'|] eqn:E2.
    2: { right. apply Index_slash_None in E2. simpl. split; [lia|].
         rewrite E1, !slashes_append, H1, E2. simpl. lia. }
    apply Index_slash_Some in E2 as [E2 H2].
    replace (m' + String.length "/") with (S m') by (simpl; lia).
    left. eexists _, _, _. split; [done|]. split; [|done].
    rewrite <- E2. done.
Qed.

(** [strings.Replace] with [n = 1] cuts out the first occurrence. *)
Lemma Index_Some_length s sub i :
  Index s sub = Some i -> i + String.length sub <= String.length s.
Proof.
  intros H. apply Index_Some in H as [(a & b & -> & <-) _].
  rewrite !length_append. lia.
Qed.

Lemma Replace_first s old new i :
  old <> "" -> old <> new -> Index s old = Some i ->
  Replace s old new 1 = take i s +:+ new +:+ drop (i + String.length old) s.
Proof.
  intros Hold Hne Hi. unfold Replace.
  rewrite (bool_decide_eq_false_2 (old = new)) by done.
  rewrite (bool_decide_eq_false_2 (1 = 0)%Z) by lia.
  assert (Count s old <> 0) as Hc.
  { unfold Count. rewrite bool_decide_eq_false_2 by done.
    pose proof (Index_Some_length _ _ _ Hi).
    destruct (String.length s) eqn:El.
    - destruct old; [done|]. simpl in *. lia.
    - simpl. by rewrite Hi. }
  rewrite bool_decide_eq_false_2 by done.
  rewrite (bool_decide_eq_false_2 (1 < 0)%Z) by lia.
  rewrite (bool_decide_eq_false_2 (Z.of_nat (Count s old) < 1)%Z) by lia.
  change (Z.to_nat 1) with 1. cbn [orb Replace_loop].
  rewrite bool_decide_eq_false_2 by done. rewrite Hi. done.
Qed.

Lemma Replace_absent s old new n :
  old <> "" -> Index s old = None -> Replace s old new n = s.
Proof.
  intros Hold Hi. unfold Replace.
  destruct (bool_decide (old = new) || bool_decide (n = 0%Z)); [done|].
  assert (Count s old = 0) as ->; [|done].
  unfold Count. rewrite bool_decide_eq_false_2 by done.
  destruct (String.length s); simpl; [done|]. by rewrite Hi.
Qed.



End StringFacts.

Module PathFacts.
Import GoStrings GoPath StringFacts.

#[local] Arguments String.append : simpl nomatch.

Lemma LastIndexByte_None s : LastIndexByte s "/" = None <-> slashes s = 0.
Proof.
  induction s as [|c s IH]; simpl; [done|].
  destruct (LastIndexByte s "/").
  - split; [done|]. intros H. assert (slashes s = 0) as H' by lia.
    by apply IH in H'.
  - destruct (Ascii.eqb c "/"); split; try done.
    + intros _. simpl. by apply IH.
Qed.

Lemma LastIndexByte_last d f :
  slashes f = 0 -> LastIndexByte (d +:+ "/" +:+ f) "/" = Some (String.length d).
Proof.
  intros Hf. induction d as [|c d IH].
  - change ("" +:+ "/" +:+ f) with (String "/" f). simpl.
    apply LastIndexByte_None in Hf. by rewrite Hf.
  - change (String c d +:+ "/" +:+ f) with (String c (d +:+ "/" +:+ f)).
    cbn [LastIndexByte]. by rewrite IH.
Qed.

(** [path.Split] cuts after the final slash: the file part is the longest
    suffix without a slash. *)
Lemma Split_dir d f :
  slashes f = 0 -> GoPath.Split (d +:+ "/" +:+ f) = (d +:+ "/", f).
Proof.
  intros Hf. unfold GoPath.Split. rewrite LastIndexByte_last by done.
  replace (S (String.length d)) with (String.length (d +:+ "/"))
    by (rewrite length_append; simpl; lia).
  rewrite <- append_assoc. by rewrite take_append, drop_append.
Qed.

Lemma Split_no_slash f : slashes f = 0 -> GoPath.Split f = ("", f).
Proof.
  intros Hf. unfold GoPath.Split. apply LastIndexByte_None in Hf.
  by rewrite Hf.
Qed.

Lemma LastIndexByte_Some s i :
  LastIndexByte s "/" = Some i ->
  take (S i) s = take i s +:+ "/" /\ slashes (drop (S i) s) = 0.
Proof.
  revert i; induction s as [|c s IH]; intros i; cbn [LastIndexByte]; [done|].
  destruct (LastIndexByte s "/") as [k|] eqn:E.
  - intros [= <-]. destruct (IH k eq_refl) as [H1 H2].
    split; [|done].
    change (take (S (S k)) (String c s)) with (String c (take (S k) s)).
    by rewrite H1.
  - destruct (Ascii.eqb c "/") eqn:Ec; [|done]. intros [= <-].
    apply Ascii.eqb_eq in Ec as ->. split; [by destruct s|].
    by apply LastIndexByte_None.
Qed.

Lemma Split_spec p :
  exists dir file, GoPath.Split p = (dir, file) /\ p = dir +:+ file /\
    slashes file = 0 /\ (dir = "" \/ exists d, dir = d +:+ "/").
Proof.
  unfold GoPath.Split. destruct (LastIndexByte p "/") as [i|] eqn:E.
  - apply LastIndexByte_Some in E as [E1 E2].
    exists (take (S i) p), (drop (S i) p). split; [done|].
    split; [by rewrite take_drop|]. split; [done|]. right. by exists (take i p).
  - exists "", p. split; [done|]. split; [done|]. split; [|by left].
    by apply LastIndexByte_None.
Qed.

End PathFacts.

Module CleanFacts.
Import GoStrings GoPath StringFacts PathFacts.

#[local] Arguments String.append : simpl nomatch.

Lemma copyElement_length p out :
  String.length (fst (copyElement p out)) <= String.length p.
Proof.
  revert out; induction p as [|c p IH]; intros out; simpl; [lia|].
  destruct (Ascii.eqb c "/"); simpl; [lia|]. specialize (IH (c :: out)). lia.
Qed.

Lemma length_drop_le n s : String.length (drop n s) <= String.length s.
Proof.
  revert s; induction n as [|n IH]; intros [|c s]; simpl; try lia.
  specialize (IH s). lia.
Qed.

(** The fuel of [Clean_loop] does not matter once it covers the path. *)
Lemma Clean_loop_fuel f1 f2 rooted p out dotdot :
  String.length p <= f1 -> String.length p <= f2 ->
  Clean_loop f1 rooted p out dotdot = Clean_loop f2 rooted p out dotdot.
Proof.
  revert f2 p out dotdot; induction f1 as [|f1 IH]; intros f2 p out dotdot H1 H2.
  - destruct p; [|simpl in H1; lia]. by destruct f2.
  - destruct p as [|c p1]; [by destruct f2|].
    destruct f2 as [|f2]; [simpl in H2; lia|].
    simpl in H1, H2. cbn [Clean_loop].
    destruct (Ascii.eqb c "/") eqn:Ec; [apply IH; lia|].
    destruct (Ascii.eqb c "." && endOrSlash p1); [apply IH; lia|].
    pose proof (length_drop_le 1 p1).
    destruct (Ascii.eqb c "." && _).
    + destruct out as [|last rest].
      * destruct (negb rooted); apply IH; lia.
      * destruct (dotdot <? length (last :: rest)); [apply IH; lia|].
        destruct (negb rooted); apply IH; lia.
    + cbn [copyElement]. rewrite Ec.
      match goal with |- context [copyElement p1 ?o] =>
        pose proof (copyElement_length p1 o) as Hl;
        destruct (copyElement p1 o) as [rest out2] end.
      simpl in Hl. apply IH; lia.
Qed.

Lemma string_of_rev_pushBytes s out acc :
  string_of_rev acc (pushBytes s out) = string_of_rev (s +:+ acc) out.
Proof.
  revert out; induction s as [|c s IH]; intros out; simpl; [done|].
  by rewrite IH.
Qed.

Lemma string_of_rev_pushSlash out acc :
  string_of_rev acc (pushSlash out) =
  string_of_rev ((match out with [] => "" | _ => "/" end) +:+ acc) out.
Proof. by destruct out. Qed.

Lemma pushBytes_not_nil s out : out <> [] -> pushBytes s out <> [].
Proof.
  revert out; induction s as [|c s IH]; intros out H; simpl; [done|].
  by apply IH.
Qed.

Lemma endOrSlash_slashRun n p : endOrSlash (slashRun (S n) +:+ p) = true.
Proof. done. Qed.

Lemma copyElement_segment seg rest out :
  slashes seg = 0 -> endOrSlash rest = true ->
  copyElement (seg +:+ rest) out = (rest, pushBytes seg out).
Proof.
  revert out; induction seg as [|c seg IH]; intros out Hs Hr.
  - simpl. destruct rest as [|d rest]; [done|]. simpl in *. by rewrite Hr.
  - simpl in Hs. change (String c seg +:+ rest) with (String c (seg +:+ rest)).
    cbn [copyElement pushBytes].
    destruct (Ascii.eqb c "/"); [done|]. by apply IH.
Qed.

(** One round of [Clean_loop] on a plain segment of a relative path. *)
Lemma Clean_loop_segment fuel seg rest out :
  plainSegment seg -> endOrSlash rest = true ->
  String.length (seg +:+ rest) <= fuel ->
  Clean_loop fuel false (seg +:+ rest) out 0 =
  Clean_loop fuel false rest (pushBytes seg (pushSlash out)) 0.
Proof.
  intros (c & s' & -> & Hdot & Hs) Hr Hl.
  destruct fuel as [|fuel]; [simpl in Hl; lia|].
  change (String c s' +:+ rest) with (String c (s' +:+ rest)) in *.
  remember (Clean_loop (S fuel) false rest
              (pushBytes (String c s') (pushSlash out)) 0) as R eqn:HR.
  cbn [Clean_loop].
  assert (Ascii.eqb c "/" = false) as Ec.
  { simpl in Hs. by destruct (Ascii.eqb c "/"). }
  assert (Ascii.eqb c "." = false) as Ed by by apply Ascii.eqb_neq.
  rewrite Ec, Ed. cbn [andb orb negb].
  change (String c (s' +:+ rest)) with (String c s' +:+ rest).
  rewrite copyElement_segment by done.
  assert ((if negb (length out =? 0) then "/"%char :: out else out)
          = pushSlash out) as -> by by destruct out.
  subst R. simpl in Hl. rewrite length_append in Hl.
  apply Clean_loop_fuel; lia.
Qed.

Lemma Clean_loop_slashRun fuel rooted n p out dotdot :
  String.length (slashRun n +:+ p) <= fuel ->
  Clean_loop fuel rooted (slashRun n +:+ p) out dotdot =
  Clean_loop fuel rooted p out dotdot.
Proof.
  revert fuel; induction n as [|n IH]; intros fuel Hl; [done|].
  destruct fuel as [|fuel]; [simpl in Hl; lia|].
  change (slashRun (S n) +:+ p) with (String "/" (slashRun n +:+ p)) in *.
  remember (Clean_loop (S fuel) rooted p out dotdot) as R eqn:HR.
  cbn [Clean_loop]. change (Ascii.eqb "/" "/") with true. cbn iota.
  simpl in Hl. rewrite IH by lia. subst R.
  rewrite length_append in Hl. apply Clean_loop_fuel; lia.
Qed.

Lemma joinSegments_cons seg segs :
  segs <> [] -> joinSegments (seg :: segs) = seg +:+ "/" +:+ joinSegments segs.
Proof. by destruct segs. Qed.

(** [Clean_loop] on plain segments: they are written to the buffer with one
    slash between them. *)
Lemma Clean_loop_spaced items last k out fuel :
  Forall (fun it => plainSegment (fst it)) items -> plainSegment last ->
  String.length (spacedSegments items (last +:+ slashRun k)) <= fuel ->
  exists out',
    Clean_loop fuel false (spacedSegments items (last +:+ slashRun k)) out 0
    = out' /\ out' <> [] /\
    forall acc,
      string_of_rev acc out' =
      string_of_rev
        ((match out with [] => "" | _ => "/" end) +:+
         joinSegments ((fst <$> items) ++ [last]) +:+ acc) out.
Proof.
  intros Hitems Hlast. revert out.
  induction Hitems as [|[seg n] items Hseg Hitems IH]; intros out Hl.
  - cbn [spacedSegments] in *.
    rewrite Clean_loop_segment; [|done|by destruct k|done].
    rewrite length_append in Hl.
    replace (slashRun k) with (slashRun k +:+ "") by apply append_nil_r.
    rewrite Clean_loop_slashRun by (rewrite append_nil_r; lia).
    exists (pushBytes last (pushSlash out)).
    split; [by destruct fuel|]. split.
    + destruct Hlast as (c & s' & -> & _). simpl. by apply pushBytes_not_nil.
    + intros acc. by rewrite string_of_rev_pushBytes, string_of_rev_pushSlash.
  - cbn [spacedSegments fst] in *. simpl in Hseg.
    rewrite Clean_loop_segment; [|done|done|done].
    rewrite length_append in Hl.
    rewrite Clean_loop_slashRun by lia.
    rewrite length_append in Hl.
    destruct (IH (pushBytes seg (pushSlash out)) ltac:(lia))
      as (out' & -> & Hne & Hstr).
    exists out'. split; [done|]. split; [done|]. intros acc. rewrite Hstr.
    assert (pushBytes seg (pushSlash out) <> []) as Hne'.
    { destruct Hseg as (c & s' & -> & _). simpl. by apply pushBytes_not_nil. }
    destruct (pushBytes seg (pushSlash out)) eqn:E; [done|]. rewrite <- E.
    rewrite string_of_rev_pushBytes, string_of_rev_pushSlash.
    cbn [fmap list_fmap app]. rewrite joinSegments_cons by by destruct items.
    by rewrite !append_assoc.
Qed.

Lemma Clean_spaced items last k :
  Forall (fun it => plainSegment (fst it)) items -> plainSegment last ->
  Clean (spacedSegments items (last +:+ slashRun k)) =
  joinSegments ((fst <$> items) ++ [last]).
Proof.
  intros Hitems Hlast.
  destruct (Clean_loop_spaced items last k []
              (String.length (spacedSegments items (last +:+ slashRun k)))
              Hitems Hlast ltac:(lia)) as (out' & Hloop & Hne & Hstr).
  assert (exists c p, spacedSegments items (last +:+ slashRun k) = String c p
                      /\ Ascii.eqb c "/" = false) as (c & p & Ep & Ec).
  { assert (forall seg rest, plainSegment seg ->
              exists c p, seg +:+ rest = String c p /\ Ascii.eqb c "/" = false)
      as Hfirst.
    { intros seg rest (c & s' & -> & _ & Hs). exists c, (s' +:+ rest).
      split; [done|]. simpl in Hs. by destruct (Ascii.eqb c "/"). }
    destruct Hitems as [|[seg n] items Hseg _]; cbn [spacedSegments].
    - by apply Hfirst.
    - by apply Hfirst. }
  unfold Clean. rewrite Ep in *. rewrite Ec. rewrite Hloop.
  destruct out'; [done|]. rewrite Hstr. simpl. by rewrite append_nil_r.
Qed.

(** [path.Join] of two elements. *)
Lemma Join_pair alt e :
  alt <> "" -> Join [alt; e] = Clean (alt +:+ "/" +:+ e).
Proof.
  intros Halt. unfold Join. rewrite bool_decide_eq_false_2.
  2: { destruct alt; [done|]. simpl. lia. }
  cbn [Join_buf]. rewrite (bool_decide_eq_true_2 ("" = "")) by done.
  rewrite (bool_decide_eq_false_2 (alt = "")) by done. cbn [negb orb].
  rewrite (bool_decide_eq_false_2 ("" +:+ alt = "")) by done. done.
Qed.

Lemma Join_empty_r alt :
  Join [alt; ""] = if bool_decide (alt = "") then "" else Clean (alt +:+ "/").
Proof.
  case_bool_decide as H; [by subst|]. by rewrite Join_pair.
Qed.

Lemma spacedSegments_app items1 items2 rest :
  spacedSegments (items1 ++ items2) rest =
  spacedSegments items1 (spacedSegments items2 rest).
Proof.
  induction items1 as [|[seg n] items1 IH]; [done|].
  cbn [app spacedSegments]. by rewrite IH.
Qed.

Lemma spacedSegments_append items rest x :
  spacedSegments items rest +:+ x = spacedSegments items (rest +:+ x).
Proof.
  induction items as [|[seg n] items IH]; [done|].
  cbn [spacedSegments]. by rewrite !append_assoc, IH.
Qed.

Lemma joinSegments_snoc segs last :
  joinSegments (segs ++ [last]) =
  spacedSegments ((fun seg => (seg, 0)) <$> segs) last.
Proof.
  induction segs as [|seg segs IH]; [done|].
  cbn [app fmap list_fmap spacedSegments].
  rewrite joinSegments_cons by by destruct segs. by rewrite IH.
Qed.

Lemma slashRun_snoc k : slashRun k +:+ "/" = slashRun (S k).
Proof. induction k as [|k IH]; [done|]. simpl. by rewrite IH. Qed.

Lemma fst_spaced (segs : list string) :
  fst <$> ((fun seg => (seg, 0)) <$> segs) = segs.
Proof. induction segs; [done|]. simpl. by f_equal. Qed.

Lemma plain_join_not_empty init l k :
  plainSegment l -> joinSegments (init ++ [l]) +:+ slashRun k <> "".
Proof.
  intros (c & s' & -> & _) H. apply (f_equal String.length) in H.
  rewrite length_append, joinSegments_snoc in H.
  assert (0 < String.length
                (spacedSegments ((fun seg => (seg, 0)) <$> init) (String c s'))).
  { induction init as [|seg init IH]; simpl; [lia|].
    rewrite !length_append. simpl. lia. }
  simpl in H. lia.
Qed.

(** An alternate location made of plain segments, joined with a plain last
    segment or with the empty one. *)
Lemma Join_plain segs k last :
  segs <> [] -> Forall plainSegment segs -> plainSegment last ->
  Join [joinSegments segs +:+ slashRun k; last] = joinSegments (segs ++ [last]).
Proof.
  intros Hne Hsegs Hlast.
  destruct (exists_last Hne) as [init [l ->]].
  apply Forall_app in Hsegs as [Hinit Hl]. apply Forall_inv in Hl.
  rewrite Join_pair.
  2: { by apply plain_join_not_empty. }
  rewrite joinSegments_snoc, !spacedSegments_append.
  rewrite append_assoc, <- (append_assoc (slashRun k)), slashRun_snoc.
  change (l +:+ slashRun (S k) +:+ last)
    with (spacedSegments [(l, k)] last).
  rewrite <- spacedSegments_app.
  rewrite <- (append_nil_r last) at 1. change "" with (slashRun 0).
  rewrite Clean_spaced; [|..|done].
  - rewrite fmap_app, fst_spaced. done.
  - apply Forall_app. split.
    + apply Forall_fmap. by eapply Forall_impl.
    + by constructor.
Qed.

Lemma Join_plain_empty segs k :
  segs <> [] -> Forall plainSegment segs ->
  Join [joinSegments segs +:+ slashRun k; ""] = joinSegments segs.
Proof.
  intros Hne Hsegs.
  destruct (exists_last Hne) as [init [l ->]].
  apply Forall_app in Hsegs as [Hinit Hl]. apply Forall_inv in Hl.
  rewrite Join_pair.
  2: { by apply plain_join_not_empty. }
  rewrite joinSegments_snoc, (append_nil_r "/"), !spacedSegments_append.
  rewrite append_assoc, slashRun_snoc.
  rewrite Clean_spaced; [|..|done].
  - by rewrite fst_spaced, joinSegments_snoc.
  - apply Forall_fmap. by eapply Forall_impl.
Qed.

End CleanFacts.

(** * Facts about the engine *)

Module EngineFacts.
Import StringFacts PathFacts.

Section Listing.
Variable W : World.
Variable config : Config.

Lemma collect_filtered pattern objs sequences :
  collect W pattern objs sequences = sequences ++ filtered W pattern objs.
Proof.
  revert sequences; induction objs as [|obj objs IH]; intros sequences.
  - unfold filtered. simpl. by rewrite app_nil_r.
  - cbn [collect]. unfold filtered. cbn [List.filter]. unfold matches at 1.
    destruct (regexp_MatchString W pattern (GoPath.Base (storage.Name obj)))
      as [[] ?]; cbn [fst]; rewrite IH.
    + rewrite <- app_assoc. done.
    + done.
Qed.

Lemma expandPrefix_attempts prefix :
  expandPrefix W prefix config =
  attempts W maxTry (listerPrefix prefix) (filterFor config prefix) None.
Proof.
  unfold expandPrefix, listerPrefix, filterFor.
  by destruct (GoStrings.Contains prefix "__HD").
Qed.

Lemma afterAttempts_S st q k :
  afterAttempts (afterAttempts st q 1) q k = afterAttempts st q (S k).
Proof.
  unfold afterAttempts. simpl. f_equal. by rewrite <- app_assoc.
Qed.

Lemma attemptRun_S st q j :
  attemptRun W (afterAttempts st q 1) q j = attemptRun W st q (S j).
Proof.
  unfold attemptRun, afterAttempts. simpl. rewrite length_app. simpl.
  f_equal. lia.
Qed.

Lemma attempts_step n prefix pattern err st :
  let q := {| storage.Prefix := prefix; storage.Delimiter := "/" |} in
  attempts W (S n) prefix pattern err st =
  match storage.stop (attemptRun W st q 0) with
  | Done => ((filtered W pattern (storage.items (attemptRun W st q 0)), None),
             afterAttempts st q 1)
  | e => attempts W n prefix pattern (Some e) (afterAttempts st q 1)
  end.
Proof.
  intros q. cbn [attempts]. unfold bind, bucket_Objects, attemptRun.
  rewrite Nat.add_0_r. fold q. rewrite collect_filtered.
  destruct (storage.stop (Objects W (length (listed st)) q)); done.
Qed.

(** The first run that reaches the sentinel decides the result. *)
Lemma attempts_done n prefix pattern err st j :
  let q := {| storage.Prefix := prefix; storage.Delimiter := "/" |} in
  j < n ->
  storage.stop (attemptRun W st q j) = Done ->
  (forall i, i < j -> storage.stop (attemptRun W st q i) <> Done) ->
  attempts W n prefix pattern err st =
  ((filtered W pattern (storage.items (attemptRun W st q j)), None),
   afterAttempts st q (S j)).
Proof.
  intros q. revert err st j.
  induction n as [|n IH]; intros err st j Hj Hdone Hbefore; [lia|].
  rewrite attempts_step. fold q. destruct j as [|j].
  - by rewrite Hdone.
  - pose proof (Hbefore 0 ltac:(lia)) as H0.
    destruct (storage.stop (attemptRun W st q 0)) eqn:E; [done|].
    rewrite (IH _ _ j); [|lia| |].
    + by rewrite attemptRun_S, afterAttempts_S.
    + by rewrite attemptRun_S.
    + intros i Hi. rewrite attemptRun_S. apply Hbefore. lia.
Qed.

(** When no run reaches it, the error of the last run is returned. *)
Lemma attempts_exhausted n prefix pattern err st :
  let q := {| storage.Prefix := prefix; storage.Delimiter := "/" |} in
  (forall j, j < n -> storage.stop (attemptRun W st q j) <> Done) ->
  attempts W n prefix pattern err st =
  (([], match n with
        | 0 => err
        | S n' => Some (storage.stop (attemptRun W st q n'))
        end),
   afterAttempts st q n).
Proof.
  intros q. revert err st.
  induction n as [|n IH]; intros err st Hall.
  - unfold afterAttempts, attempts, ret. simpl. rewrite app_nil_r.
    by destruct st.
  - rewrite attempts_step. fold q.
    pose proof (Hall 0 ltac:(lia)) as H0.
    destruct (storage.stop (attemptRun W st q 0)) eqn:E; [done|].
    rewrite IH.
    2: { intros j Hj. rewrite attemptRun_S. apply Hall. lia. }
    rewrite afterAttempts_S. destruct n as [|n]; [by rewrite E|].
    by rewrite attemptRun_S.
Qed.

(** Which of the two it is can be decided. *)
Lemma first_done_dec (f : nat -> error) n :
  (exists j, j < n /\ f j = Done /\ forall i, i < j -> f i <> Done) \/
  (forall j, j < n -> f j <> Done).
Proof.
  induction n as [|n [(j & Hj & Hd & Hb)|Hall]].
  - right. lia.
  - left. exists j. split; [lia|done].
  - destruct (decide (f n = Done)) as [Hn|Hn].
    + left. exists n. split; [lia|]. split; [done|]. intros i Hi.
      by apply Hall.
    + right. intros j Hj. destruct (decide (j = n)) as [->|]; [done|].
      apply Hall. lia.
Qed.

(** An expansion that fails returns no sequences and an error that is not
    the sentinel. *)
Lemma expandPrefix_error prefix st seqs e st' :
  expandPrefix W prefix config st = ((seqs, Some e), st') ->
  seqs = [] /\ e <> Done /\
  e = storage.stop (attemptRun W st (listerQuery prefix) (maxTry - 1)).
Proof.
  rewrite expandPrefix_attempts.
  destruct (first_done_dec
    (fun j => storage.stop (attemptRun W st (listerQuery prefix) j)) maxTry)
    as [(j & Hj & Hd & Hb)|Hall].
  - unfold listerQuery in *. by rewrite (attempts_done _ _ _ _ _ j).
  - unfold listerQuery in *. rewrite attempts_exhausted by done.
    intros [= <- <- <-]. split; [done|]. split; [|done].
    apply Hall. unfold maxTry. lia.
Qed.

(** The loop of [getPrefixMapping] against the list of expansions. *)
Lemma getPrefixMapping_loop_ok prefixes m st :
  Forall (fun r => snd r = None) (expansions W config prefixes st) ->
  fst (getPrefixMapping_loop W config prefixes m st) =
  ({| Sequences :=
        Sequences m ++ concat (fst <$> expansions W config prefixes st) |},
   None).
Proof.
  revert m st; induction prefixes as [|p prefixes IH]; intros m st Hall.
  - simpl. rewrite app_nil_r. by destruct m.
  - cbn [getPrefixMapping_loop expansions] in *. unfold bind.
    destruct (expandPrefix W p config st) as [[seqs err] st1].
    apply Forall_cons in Hall as [Herr Hall]. simpl in Herr. subst err.
    rewrite IH by done. simpl. by rewrite app_assoc.
Qed.

Lemma getPrefixMapping_loop_error prefixes m st :
  Exists (fun r => snd r <> None) (expansions W config prefixes st) ->
  exists m' e seqs,
    fst (getPrefixMapping_loop W config prefixes m st) = (m', Some e) /\
    e <> Done /\ (seqs, Some e) ∈ expansions W config prefixes st.
Proof.
  revert m st; induction prefixes as [|p prefixes IH]; intros m st Hex.
  - by apply Exists_nil in Hex.
  - cbn [getPrefixMapping_loop expansions] in *. unfold bind.
    destruct (expandPrefix W p config st) as [[seqs [e|]] st1] eqn:E.
    + exists m, e, seqs. split; [done|].
      apply expandPrefix_error in E as (_ & He & _). split; [done|].
      apply list_elem_of_here.
    + apply Exists_cons in Hex as [Hex|Hex]; [done|].
      destruct (IH {| Sequences := Sequences m ++ seqs |} st1 Hex)
        as (m' & e & seqs' & H1 & H2 & H3).
      exists m', e, seqs'. split; [done|]. split; [done|].
      by apply list_elem_of_further.
Qed.

Lemma getPrefixMapping_loop_inv prefixes m st m' st' :
  getPrefixMapping_loop W config prefixes m st = ((m', None), st') ->
  Forall (fun r => snd r = None) (expansions W config prefixes st).
Proof.
  intros H.
  destruct (Forall_Exists_dec (fun r => snd r = None)
              (fun r => snd r <> None)
              (fun r : list sequence * option error =>
                 decide (snd r = None))
              (expansions W config prefixes st)) as [Hall|Hex]; [done|].
  exfalso.
  apply (getPrefixMapping_loop_error _ m) in Hex as (? & ? & ? & H1 & _).
  rewrite H in H1. done.
Qed.

End Listing.

(** [getPrefixes]: the appending loop is a map. *)
Lemma fold_left_snoc {A B} (f : A -> B) (l : list A) (acc : list B) :
  fold_left (fun acc x => acc ++ [f x]) l acc = acc ++ (f <$> l).
Proof.
  revert acc; induction l as [|x l IH]; intros acc; simpl.
  - by rewrite app_nil_r.
  - rewrite IH. by rewrite <- app_assoc.
Qed.

Lemma getPrefixes_map original config :
  getPrefixes original config =
  original ::
    ((fun p => GoPath.Join [p; snd (GoPath.Split original)]) <$>
       MapExtraPrefixes config).
Proof.
  unfold getPrefixes. destruct (GoPath.Split original) as [dir lastPart].
  by rewrite fold_left_snoc.
Qed.

(** [appendExtraResources]: the appending loop is a filter. *)
Lemma appendExtraResources_loop tokens m :
  Sequences
    (fold_left
       (fun m resource =>
          if bool_decide (resource <> "")
          then {| Sequences := Sequences m ++ [sourceSequence resource] |}
          else m) tokens m) =
  Sequences m ++
    (sourceSequence <$>
       List.filter (fun token => negb (bool_decide (token = ""))) tokens).
Proof.
  revert m; induction tokens as [|t tokens IH]; intros m; simpl.
  - by rewrite app_nil_r.
  - rewrite IH. destruct (decide (t = "")) as [->|Hne].
    + done.
    + rewrite bool_decide_eq_true_2 by done.
      rewrite (bool_decide_eq_false_2 (t = "")) by done. simpl.
      by rewrite <- app_assoc.
Qed.

Lemma appendExtraResources_sequences r config m :
  Sequences (appendExtraResources r config m) =
  Sequences m ++ extraSequences r config.
Proof. apply appendExtraResources_loop. Qed.

Lemma insert_middle {A} (l1 l2 : list A) (x y : A) :
  <[length l1 := y]> (l1 ++ x :: l2) = l1 ++ y :: l2.
Proof. rewrite insert_app_r_alt by lia. by rewrite Nat.sub_diag. Qed.

Section Signing.
Variable W : World.
Variable opts : storage.SignedURLOptions.

Lemma signedPath_cases path st :
  (GoStrings.slashes path < 2 /\
   signedPath W path opts st = ((path, None), st)) \/
  (exists a bucket key,
     path = a +:+ "/" +:+ bucket +:+ "/" +:+ key /\
     GoStrings.slashes a = 0 /\ GoStrings.slashes bucket = 0 /\
     signedPath W path opts st =
     (match SignedURL W bucket key opts with
      | Fail e => ("", Some e)
      | Ok rawSignedURL =>
          match url_Parse W rawSignedURL with
          | Fail e => ("", Some e)
          | Ok signedURL => (RequestURI signedURL, None)
          end
      end, signedCall W opts st bucket key)).
Proof.
  unfold signedPath.
  destruct (SplitN3_cases path) as [(a & b & k & -> & E & Ha & Hb)|[Hl Hs]].
  - right. exists a, b, k. split; [done|]. split; [done|]. split; [done|].
    unfold bind, signedCall, storage_SignedURL. simpl.
    destruct (SignedURL W b k opts) as [raw|e]; [|done].
    by destruct (url_Parse W raw).
  - left. split; [done|].
    destruct (GoStrings.SplitN path "/" 3) as [|x [|y [|z [|w l]]]];
      simpl in Hl; try done; lia.
Qed.

Lemma signedPath_ok path st path' st' :
  signedPath W path opts st = ((path', None), st') ->
  signedAs W opts path path'.
Proof.
  destruct (signedPath_cases path st)
    as [[Hs ->]|(a & b & k & -> & Ha & Hb & ->)].
  - intros [= <- <-]. by constructor.
  - destruct (SignedURL W b k opts) as [raw|e] eqn:E1; [|done].
    destruct (url_Parse W raw) as [u|e] eqn:E2; [|done].
    intros [= <- <-]. by econstructor.
Qed.

(** The rewriting of a path is determined by the path. *)
Lemma signedAs_unique path x y :
  signedAs W opts path x -> signedAs W opts path y -> x = y.
Proof.
  intros Hx Hy. destruct Hx as [path Hs|a b k raw u Ha Hb Hsign Hparse].
  - inversion Hy as [|a b k raw u Ha Hb Hsign Hparse E]; [done|]. subst.
    rewrite !slashes_append in Hs. simpl in Hs. lia.
  - remember (a +:+ "/" +:+ b +:+ "/" +:+ k) as path eqn:E.
    destruct Hy as [path Hs|a' b' k' raw' u' Ha' Hb' Hsign' Hparse'].
    + subst path. rewrite !slashes_append in Hs. simpl in Hs. lia.
    + apply (f_equal (fun p => GoStrings.SplitN p "/" 3)) in E.
      rewrite !SplitN3_locator in E by done. injection E as -> -> ->.
      congruence.
Qed.

Lemma signedPath_err path st path' e st' :
  signedPath W path opts st = ((path', Some e), st') ->
  signFails W opts path e.
Proof.
  destruct (signedPath_cases path st)
    as [[Hs ->]|(a & b & k & -> & Ha & Hb & ->)]; [done|].
  intros H. exists a, b, k. split; [done|]. split; [done|]. split; [done|].
  destruct (SignedURL W b k opts) as [raw|e'] eqn:E1.
  - destruct (url_Parse W raw) as [u|e''] eqn:E2; [done|].
    injection H as <- <- <-. right. by exists raw.
  - injection H as <- <- <-. by left.
Qed.

Lemma signFails_signedPath path e st :
  signFails W opts path e ->
  exists st', signedPath W path opts st = (("", Some e), st').
Proof.
  intros (a & b & k & -> & Ha & Hb & Hf). unfold signedPath.
  rewrite SplitN3_locator by done.
  unfold bind, storage_SignedURL. simpl.
  destruct Hf as [->|(raw & -> & ->)]; eauto.
Qed.

Lemma signsWith_refl st : signsWith opts st st.
Proof. split; [done|]. exists []. by rewrite app_nil_r. Qed.

Lemma signsWith_trans st1 st2 st3 :
  signsWith opts st1 st2 -> signsWith opts st2 st3 -> signsWith opts st1 st3.
Proof.
  intros [L1 (c1 & S1 & F1)] [L2 (c2 & S2 & F2)]. split; [congruence|].
  exists (c1 ++ c2). rewrite S2, S1, app_assoc. split; [done|].
  by apply Forall_app.
Qed.

Lemma signedPath_signsWith path st :
  signsWith opts st (snd (signedPath W path opts st)).
Proof.
  destruct (signedPath_cases path st)
    as [[Hs ->]|(a & b & k & -> & Ha & Hb & ->)]; [apply signsWith_refl|].
  split; [done|]. eexists. split; [done|]. by repeat constructor.
Qed.

(** The inner loop of [signedURLs]. *)
Lemma signList_ok clips st clips' st' :
  signList W opts clips st = ((clips', None), st') ->
  Forall2 (signedClip W opts) clips clips'.
Proof.
  revert st clips' st'; induction clips as [|cl clips IH];
    intros st clips' st'; cbn [signList]; unfold bind, ret.
  - intros [= <- <-]. constructor.
  - destruct (signedPath W (Path cl) opts st) as [[p [e|]] st1] eqn:E1;
      [done|].
    destruct (signList W opts clips st1) as [[clips1 err] st2] eqn:E2.
    intros [= <- -> <-]. constructor.
    + split; [done|]. by eapply signedPath_ok.
    + by eapply IH.
Qed.

Lemma signList_err clips st clips' e st' :
  signList W opts clips st = ((clips', Some e), st') ->
  exists cl, cl ∈ clips /\ signFails W opts (Path cl) e.
Proof.
  revert st clips' st'; induction clips as [|cl clips IH];
    intros st clips' st'; cbn [signList]; unfold bind, ret; [done|].
  destruct (signedPath W (Path cl) opts st) as [[p [e'|]] st1] eqn:E1.
  - intros [= <- <- <-]. exists cl. split; [apply list_elem_of_here|].
    by eapply signedPath_err.
  - destruct (signList W opts clips st1) as [[clips1 err] st2] eqn:E2.
    intros [= <- -> <-]. destruct (IH _ _ _ E2) as (cl' & Hin & Hf).
    exists cl'. split; [by apply list_elem_of_further|done].
Qed.

Lemma signList_fails clips st cl e :
  cl ∈ clips -> signFails W opts (Path cl) e ->
  exists e', snd (fst (signList W opts clips st)) = Some e'.
Proof.
  revert st; induction clips as [|cl0 clips IH]; intros st Hin Hf.
  - by apply elem_of_nil in Hin.
  - cbn [signList]. unfold bind, ret.
    destruct (signedPath W (Path cl0) opts st) as [[p [e'|]] st1] eqn:E1;
      [by exists e'|].
    apply elem_of_cons in Hin as [->|Hin].
    + destruct (signFails_signedPath _ _ st Hf) as [st2 E2]. congruence.
    + destruct (IH st1 Hin Hf) as [e' He'].
      destruct (signList W opts clips st1) as [[clips1 err] st2].
      by exists e'.
Qed.

Lemma signList_signsWith clips st :
  signsWith opts st (snd (signList W opts clips st)).
Proof.
  revert st; induction clips as [|cl clips IH]; intros st;
    cbn [signList]; unfold bind, ret; [apply signsWith_refl|].
  pose proof (signedPath_signsWith (Path cl) st) as H1.
  destruct (signedPath W (Path cl) opts st) as [[p [e'|]] st1]; [done|].
  pose proof (IH st1) as H2.
  destruct (signList W opts clips st1) as [[clips1 err] st2].
  by eapply signsWith_trans.
Qed.

(** The index loop over the clips is the recursion on the clips that are
    left. *)
Lemma signClips_signList done_ rest st :
  signClips W opts (length rest) (length done_) (done_ ++ rest) st =
  let '((rest', err), st') := signList W opts rest st in
  ((done_ ++ rest', err), st').
Proof.
  revert done_ st; induction rest as [|cl rest IH]; intros done_ st.
  - done.
  - cbn [length signClips signList]. rewrite list_lookup_middle by done.
    unfold bind, ret.
    destruct (signedPath W (Path cl) opts st) as [[p [e|]] st1]; [done|].
    rewrite insert_middle.
    specialize (IH (done_ ++ [{| Type_ := Type_ cl; Path := p |}]) st1).
    rewrite length_app, <- app_assoc in IH. simpl in IH.
    replace (length done_ + 1) with (S (length done_)) in IH by lia.
    rewrite IH.
    destruct (signList W opts rest st1) as [[rest' err] st2].
    by rewrite <- app_assoc.
Qed.

Lemma signClips_all clips st :
  signClips W opts (length clips) 0 clips st = signList W opts clips st.
Proof.
  pose proof (signClips_signList [] clips st) as H. simpl in H.
  rewrite H. by destruct (signList W opts clips st) as [[] ?].
Qed.

(** The outer loop of [signedURLs]. *)
Lemma signSequences_signSeqList done_ rest st :
  signSequences W opts (length rest) (length done_) (done_ ++ rest) st =
  let '((rest', err), st') := signSeqList W opts rest st in
  ((done_ ++ rest', err), st').
Proof.
  revert done_ st; induction rest as [|sq rest IH]; intros done_ st.
  - done.
  - cbn [length signSequences signSeqList].
    rewrite list_lookup_middle by done. unfold bind, ret.
    rewrite signClips_all.
    destruct (signList W opts (Clips sq) st) as [[clips err] st1].
    cbn [app]. rewrite insert_middle.
    destruct err as [e|]; [done|].
    specialize (IH (done_ ++ [{| Clips := clips |}]) st1).
    rewrite length_app, <- app_assoc in IH. simpl in IH.
    replace (length done_ + 1) with (S (length done_)) in IH by lia.
    rewrite IH.
    destruct (signSeqList W opts rest st1) as [[rest' err] st2].
    by rewrite <- app_assoc.
Qed.

Lemma signSequences_all seqs st :
  signSequences W opts (length seqs) 0 seqs st = signSeqList W opts seqs st.
Proof.
  pose proof (signSequences_signSeqList [] seqs st) as H. simpl in H.
  rewrite H. by destruct (signSeqList W opts seqs st) as [[] ?].
Qed.

Lemma signSeqList_ok seqs st seqs' st' :
  signSeqList W opts seqs st = ((seqs', None), st') ->
  Forall2 (fun sq sq' => Forall2 (signedClip W opts) (Clips sq) (Clips sq'))
    seqs seqs'.
Proof.
  revert st seqs' st'; induction seqs as [|sq seqs IH];
    intros st seqs' st'; cbn [signSeqList]; unfold bind, ret.
  - intros [= <- <-]. constructor.
  - destruct (signList W opts (Clips sq) st) as [[clips [e|]] st1] eqn:E1;
      [done|].
    destruct (signSeqList W opts seqs st1) as [[seqs1 err] st2] eqn:E2.
    intros [= <- -> <-]. constructor.
    + by eapply signList_ok.
    + by eapply IH.
Qed.

Lemma signSeqList_err seqs st seqs' e st' :
  signSeqList W opts seqs st = ((seqs', Some e), st') ->
  exists path, path ∈ clipPaths seqs /\ signFails W opts path e.
Proof.
  revert st seqs' st'; induction seqs as [|sq seqs IH];
    intros st seqs' st'; cbn [signSeqList]; unfold bind, ret; [done|].
  unfold clipPaths. cbn [fmap list_fmap concat].
  destruct (signList W opts (Clips sq) st) as [[clips [e'|]] st1] eqn:E1.
  - intros [= <- <- <-].
    destruct (signList_err _ _ _ _ _ E1) as (cl & Hin & Hf).
    exists (Path cl). split; [|done]. apply elem_of_app. left.
    by apply list_elem_of_fmap_2.
  - destruct (signSeqList W opts seqs st1) as [[seqs1 err] st2] eqn:E2.
    intros [= <- -> <-]. destruct (IH _ _ _ E2) as (path & Hin & Hf).
    exists path. split; [|done]. apply elem_of_app. by right.
Qed.

Lemma signSeqList_fails seqs st path e :
  path ∈ clipPaths seqs -> signFails W opts path e ->
  exists e', snd (fst (signSeqList W opts seqs st)) = Some e'.
Proof.
  revert st; induction seqs as [|sq seqs IH]; intros st Hin Hf.
  - by apply elem_of_nil in Hin.
  - cbn [signSeqList]. unfold bind, ret.
    unfold clipPaths in Hin. cbn [fmap list_fmap concat] in Hin.
    apply elem_of_app in Hin as [Hin|Hin].
    + apply list_elem_of_fmap in Hin as (cl & -> & Hin).
      destruct (signList_fails _ st _ _ Hin Hf) as [e' He'].
      destruct (signList W opts (Clips sq) st) as [[clips err] st1].
      simpl in He'. subst err. by exists e'.
    + destruct (signList W opts (Clips sq) st) as [[clips [e'|]] st1];
        [by exists e'|].
      destruct (IH st1 Hin Hf) as [e' He'].
      destruct (signSeqList W opts seqs st1) as [[seqs1 err] st2].
      by exists e'.
Qed.

Lemma signSeqList_signsWith seqs st :
  signsWith opts st (snd (signSeqList W opts seqs st)).
Proof.
  revert st; induction seqs as [|sq seqs IH]; intros st;
    cbn [signSeqList]; unfold bind, ret; [apply signsWith_refl|].
  pose proof (signList_signsWith (Clips sq) st) as H1.
  destruct (signList W opts (Clips sq) st) as [[clips [e'|]] st1]; [done|].
  pose proof (IH st1) as H2.
  destruct (signSeqList W opts seqs st1) as [[seqs1 err] st2].
  by eapply signsWith_trans.
Qed.






End Signing.
End EngineFacts.

Module HandlerFacts.
Import StringFacts PathFacts EngineFacts.

Section Handler.
Variable W : World.
Variable config : Config.

Lemma Options_disabled st :
  AccessID (signConfig config) = "" \/ PrivateKey (signConfig config) = None ->
  Options (signConfig config) st = ((None, None), st).
Proof.
  unfold Options. intros [H|H].
  - by rewrite bool_decide_eq_true_2.
  - rewrite H. by case_bool_decide.
Qed.

Lemma Options_enabled st key :
  AccessID (signConfig config) <> "" ->
  PrivateKey (signConfig config) = Some key ->
  Options (signConfig config) st =
  ((Some (optionsAt (signConfig config) key (now st)), None), st).
Proof.
  unfold Options. intros H1 H2. rewrite bool_decide_eq_false_2 by done.
  by rewrite H2.
Qed.

Lemma signedURLs_disabled m st :
  AccessID (signConfig config) = "" \/ PrivateKey (signConfig config) = None ->
  signedURLs W config m st = ((m, None), st).
Proof.
  intros H. unfold signedURLs, bind. by rewrite Options_disabled.
Qed.

Lemma signedURLs_enabled m st key :
  AccessID (signConfig config) <> "" ->
  PrivateKey (signConfig config) = Some key ->
  signedURLs W config m st =
  let '((seqs, err), st') :=
    signSeqList W (optionsAt (signConfig config) key (now st))
      (Sequences m) st in
  (({| Sequences := seqs |}, err), st').
Proof.
  intros H1 H2. unfold signedURLs, bind.
  rewrite (Options_enabled _ key) by done. rewrite signSequences_all.
  by destruct (signSeqList _ _ _ _) as [[] ?].
Qed.

(** The handler after its two guards. *)
Lemma getMapHandler_get r st :
  Method r = "GET" ->
  GoStrings.TrimLeft (URL_Path r) "/" <> "" ->
  getMapHandler W config r st =
  let '((m, err), st1) :=
    getPrefixMapping W (GoStrings.TrimLeft (URL_Path r) "/") config st in
  match err with
  | Some (Err msg) => (http_Error msg 500, st1)
  | _ =>
      let '((m', err'), st2) :=
        signedURLs W config (appendExtraResources r config m) st1 in
      (match err' with
       | Some e => http_Error (Error e) 500
       | None => {| StatusCode := 200;
                    ContentType := "application/json";
                    Body := JSON m' |}
       end, st2)
  end.
Proof.
  intros Hm Hp. unfold getMapHandler.
  rewrite bool_decide_eq_false_2 by (intros H; by apply H).
  rewrite bool_decide_eq_false_2 by done. unfold bind.
  destruct (getPrefixMapping _ _ _ _) as [[m [[|msg]|]] st1]; try done.
  - destruct (signedURLs _ _ _ _) as [[m' [e|]] st2]; done.
  - destruct (signedURLs _ _ _ _) as [[m' [e|]] st2]; done.
Qed.

End Handler.
End HandlerFacts.

Module MappingFacts.
Import StringFacts PathFacts CleanFacts EngineFacts HandlerFacts.





Lemma expandPrefix_filtered (W : World) config prefix st :
  exists objs,
    fst (fst (expandPrefix W prefix config st)) =
    filtered W (filterFor config prefix) objs.
Proof.
  rewrite expandPrefix_attempts.
  destruct (first_done_dec
              (fun j => storage.stop
                          (attemptRun W st
                             {| storage.Prefix := listerPrefix prefix;
                                storage.Delimiter := "/" |} j)) maxTry)
    as [(j & Hj & Hd & Hb)|Hall].
  - rewrite (attempts_done W _ _ _ _ _ j) by done. by eexists.
  - rewrite attempts_exhausted by done. by exists [].
Qed.

Lemma expansions_filtered (W : World) config prefixes st :
  Forall (fun r => exists pattern objs, fst r = filtered W pattern objs)
    (expansions W config prefixes st).
Proof.
  revert st; induction prefixes as [|p prefixes IH]; intros st;
    cbn [expansions]; [constructor|].
  destruct (expandPrefix_filtered W config p st) as [objs Hobjs].
  destruct (expandPrefix W p config st) as [r st1]. constructor; [|apply IH].
  by eexists _, _.
Qed.

Lemma getPrefixMapping_ok (W : World) config original st m st' :
  getPrefixMapping W original config st = ((m, None), st') ->
  Forall (fun r => snd r = None)
    (expansions W config (getPrefixes original config) st) /\
  Sequences m =
  concat (fst <$> expansions W config (getPrefixes original config) st).
Proof.
  intros H. pose proof H as Hall. apply getPrefixMapping_loop_inv in Hall.
  split; [done|].
  pose proof (getPrefixMapping_loop_ok W config _ {| Sequences := [] |} st Hall)
    as Hok.
  unfold getPrefixMapping in H. rewrite H in Hok. by injection Hok as ->.
Qed.

(** Every attempt of an expansion sends the query of its prefix. *)
Lemma expandPrefix_afterAttempts (W : World) config prefix st :
  exists k,
    1 <= k <= maxTry /\
    snd (expandPrefix W prefix config st) =
    afterAttempts st (listerQuery prefix) k /\
    forall seqs,
      fst (expandPrefix W prefix config st) = (seqs, None) ->
      seqs =
      filtered W (filterFor config prefix)
        (storage.items (attemptRun W st (listerQuery prefix) (k - 1))).
Proof.
  rewrite expandPrefix_attempts. unfold listerQuery.
  set (q := {| storage.Prefix := listerPrefix prefix;
               storage.Delimiter := "/" |}).
  destruct (first_done_dec
              (fun j => storage.stop (attemptRun W st q j)) maxTry)
    as [(j & Hj & Hd & Hb)|Hall].
  - exists (S j). split; [lia|].
    rewrite (attempts_done W _ _ _ _ _ j) by done. split; [done|].
    intros seqs [= <-]. simpl. by rewrite Nat.sub_0_r.
  - exists maxTry. split; [unfold maxTry; lia|].
    rewrite attempts_exhausted by done. split; [done|]. done.
Qed.

(** Listing moves neither the clock nor the log of the signer. *)
Lemma expandPrefix_state (W : World) config prefix st :
  now (snd (expandPrefix W prefix config st)) = now st /\
  signed (snd (expandPrefix W prefix config st)) = signed st.
Proof.
  destruct (expandPrefix_afterAttempts W config prefix st)
    as (k & _ & -> & _). done.
Qed.

Lemma getPrefixMapping_loop_state (W : World) config prefixes m st :
  now (snd (getPrefixMapping_loop W config prefixes m st)) = now st /\
  signed (snd (getPrefixMapping_loop W config prefixes m st)) = signed st.
Proof.
  revert m st; induction prefixes as [|p prefixes IH]; intros m st; [done|].
  cbn [getPrefixMapping_loop]. unfold bind.
  destruct (expandPrefix_state W config p st) as [H1 H2].
  destruct (expandPrefix W p config st) as [[seqs [e|]] st1]; [done|].
  simpl in H1, H2. rewrite <- H1, <- H2. apply IH.
Qed.

End MappingFacts.

Module ListingFacts.
Import StringFacts PathFacts CleanFacts EngineFacts HandlerFacts MappingFacts.

(** A sequence of a run of a listing is the sequence of one of its objects
    whose base filename matches. *)
Lemma elem_of_filtered (W : World) pattern objs sq :
  sq ∈ filtered W pattern objs ->
  exists obj,
    obj ∈ objs /\ matches W pattern obj = true /\
    sq = sourceSequence (locator obj).
Proof.
  unfold filtered. intros H. apply list_elem_of_fmap in H as (obj & -> & Hin).
  apply list_elem_of_In, filter_In in Hin as [Hin Hm].
  exists obj. by rewrite list_elem_of_In.
Qed.

(** An expansion that succeeds ends at a run that reached the sentinel. *)
Lemma expandPrefix_success (W : World) config p st seqs st' :
  expandPrefix W p config st = ((seqs, None), st') ->
  exists j,
    j < maxTry /\
    storage.stop (attemptRun W st (listerQuery p) j) = Done /\
    seqs = filtered W (filterFor config p)
             (storage.items (attemptRun W st (listerQuery p) j)) /\
    st' = afterAttempts st (listerQuery p) (S j).
Proof.
  rewrite expandPrefix_attempts. unfold listerQuery.
  set (q := {| storage.Prefix := listerPrefix p; storage.Delimiter := "/" |}).
  destruct (first_done_dec
              (fun j => storage.stop (attemptRun W st q j)) maxTry)
    as [(j & Hj & Hd & Hb)|Hall].
  - rewrite (attempts_done W _ _ _ _ _ j) by done. intros [= <- <-].
    by exists j.
  - rewrite attempts_exhausted by done. done.
Qed.

(** The sequences that the loop of [getPrefixMapping] adds, whether it ends
    with an error or not: each is the sequence of an object that one of the
    runs of the loop handed out, a run that reached the sentinel. *)
Lemma getPrefixMapping_loop_listed (W : World) config prefixes m0 st m err st' :
  getPrefixMapping_loop W config prefixes m0 st = ((m, err), st') ->
  exists new queries,
    Sequences m = Sequences m0 ++ new /\
    listed st' = listed st ++ queries /\
    Forall
      (fun sq =>
         exists obj i p,
           p ∈ prefixes /\
           length (listed st) <= i /\
           listed st' !! i = Some (listerQuery p) /\
           storage.stop (Objects W i (listerQuery p)) = Done /\
           obj ∈ storage.items (Objects W i (listerQuery p)) /\
           matches W (filterFor config p) obj = true /\
           sq = sourceSequence (locator obj))
      new.
Proof.
  revert m0 st. induction prefixes as [|p prefixes IH]; intros m0 st H.
  - injection H as <- <- <-. exists [], []. by rewrite !app_nil_r.
  - cbn [getPrefixMapping_loop] in H. unfold bind in H.
    destruct (expandPrefix W p config st) as [[seqs [e|]] st1] eqn:E.
    + injection H as <- <- <-.
      destruct (expandPrefix_afterAttempts W config p st) as (k & _ & Hs & _).
      rewrite E in Hs. simpl in Hs. subst st1.
      exists [], (replicate k (listerQuery p)). by rewrite app_nil_r.
    + apply expandPrefix_success in E as (j & Hj & Hd & -> & ->).
      apply IH in H as (new & queries & Hm & Hl & Hall).
      unfold afterAttempts in Hl, Hall. cbn [Sequences listed] in Hm, Hl, Hall.
      set (q := listerQuery p) in *.
      exists (filtered W (filterFor config p)
                (storage.items (attemptRun W st q j)) ++ new),
        (replicate (S j) q ++ queries).
      split; [by rewrite Hm, app_assoc|].
      split; [by rewrite Hl, app_assoc|].
      apply Forall_app. split.
      * apply Forall_forall. intros sq Hsq.
        apply elem_of_filtered in Hsq as (obj & Hin & Hmatch & ->).
        exists obj, (length (listed st) + j), p.
        split; [apply list_elem_of_here|]. split; [lia|]. split; [|done].
        rewrite Hl, <- app_assoc.
        rewrite lookup_app_r by lia.
        rewrite lookup_app_l by (rewrite length_replicate; lia).
        apply lookup_replicate. split; [done|lia].
      * eapply Forall_impl; [exact Hall|]. simpl.
        intros sq (obj & i & p' & Hp & Hi & Hq & Hrest).
        exists obj, i, p'. split; [by apply list_elem_of_further|].
        rewrite length_app in Hi. split; [lia|]. done.
Qed.

End ListingFacts.

(** * The claims of the specification *)

Import StringFacts PathFacts CleanFacts EngineFacts HandlerFacts MappingFacts.
Import ListingFacts.




(** C2, as the specification states it, fails: the path [extra/res/x.mp4] of
    an extra resource is not of the shape [/<bucket>/<key>], and yet it is
    replaced by the request URI of a signed URL, that of the bucket [res]
    and the key [x.mp4]. *)
Lemma signing_reaches_other_shapes :
  ~ Forall2
      (fun sq sq' =>
         Forall2 (signsLocatorsOnly Sample.world Sample.options)
           (Clips sq) (Clips sq'))
      (Sequences Sample.injected)
      (Sequences
         (fst (fst (signedURLs Sample.world Sample.signingConfig
                      Sample.injected Sample.start)))).
Proof.
  intros H. vm_compute in H.
  apply Forall2_cons_1 in H as [_ H]. apply Forall2_cons_1 in H as [H _].
  apply Forall2_cons_1 in H as [[_ H] _]. simpl in H.
  assert (~ exists bucket key,
            locatorShape "extra/res/x.mp4" bucket key) as Hshape.
  { intros (bucket & key & E & _). discriminate E. }
  specialize (H Hshape). discriminate H.
Qed.

(** C2, amended. When signing is enabled and the signing stage ends without
    an error, the manifest keeps its sequences and clips, in order and with
    their types, and the path of every clip is rewritten as follows: a path
    with fewer than two slashes is kept unchanged; any other path is
    replaced by the request URI (path and query) of the URL that the signer
    returns for the bucket between the first and the second slash of the
    path and the key after the second slash, whatever stands before the
    first slash.  A storage locator [/<bucket>/<key>] is the case of
    nothing before the first slash, and the rewriting of a path is
    determined by the path.  The stage ends without an error when no clip
    fails to be signed. *)
Theorem signedURLs_rewrites_paths (W : World) (config : Config) (m : mapping)
    (st : State) (key : string) :
  AccessID (signConfig config) <> "" ->
  PrivateKey (signConfig config) = Some key ->
  let opts := optionsAt (signConfig config) key (now st) in
  (forall m' st',
     signedURLs W config m st = ((m', None), st') ->
     Forall2
       (fun sq sq' => Forall2 (signedClip W opts) (Clips sq) (Clips sq'))
       (Sequences m) (Sequences m')) /\
  ((forall path e, path ∈ clipPaths (Sequences m) ->
                   ~ signFails W opts path e) ->
   snd (fst (signedURLs W config m st)) = None) /\
  (forall bucket key' rawSignedURL u,
     GoStrings.slashes bucket = 0 ->
     SignedURL W bucket key' opts = Ok rawSignedURL ->
     url_Parse W rawSignedURL = Ok u ->
     signedAs W opts ("/" +:+ bucket +:+ "/" +:+ key') (RequestURI u)) /\
  (forall path path1 path2,
     signedAs W opts path path1 -> signedAs W opts path path2 ->
     path1 = path2).
Proof.
  intros Hid Hkey opts. split; [|split; [|split]]; [| | |apply signedAs_unique].
  - intros m' st'. rewrite (signedURLs_enabled W config m st key) by done.
    fold opts.
    destruct (signSeqList W opts (Sequences m) st) as [[seqs err] st1] eqn:E.
    intros [= <- -> <-]. simpl. by eapply signSeqList_ok.
  - intros Hnone. rewrite (signedURLs_enabled W config m st key) by done.
    fold opts.
    destruct (signSeqList W opts (Sequences m) st) as [[seqs [e|]] st1] eqn:E;
      [|done].
    apply signSeqList_err in E as (path & Hin & Hf). by apply Hnone in Hf.
  - intros bucket key' raw u Hb Hs Hp.
    by apply (signedAs_signed W opts "" bucket key' raw u).
Qed.

Lemma signedURLs_rewrites_paths_sample :
  Forall2
    (fun sq sq' =>
       Forall2 (signedClip Sample.world Sample.options) (Clips sq) (Clips sq'))
    (Sequences Sample.injected)
    [sourceSequence
       "/media/foo/bar/asset_360p.mp4?GoogleAccessId=access&Signature=c2ln";
     sourceSequence "/res/x.mp4?GoogleAccessId=access&Signature=c2ln"].
Proof.
  apply (proj1 (signedURLs_rewrites_paths Sample.world Sample.signingConfig
                  Sample.injected Sample.start "secret!"
                  ltac:(discriminate) eq_refl)
           {| Sequences :=
                [sourceSequence
                   "/media/foo/bar/asset_360p.mp4?GoogleAccessId=access&Signature=c2ln";
                 sourceSequence
                   "/res/x.mp4?GoogleAccessId=access&Signature=c2ln"] |}
           (snd (signedURLs Sample.world Sample.signingConfig Sample.injected
                   Sample.start))).
  reflexivity.
Defined.

(** C3, as the specification states it, fails: the path of an object whose
    key contains a slash has more than three segments between slashes. *)
Lemma listed_path_with_more_segments :
  ~ Forall threeSegments
      (clipPaths
         (Sequences
            (fst (fst (getPrefixMapping Sample.world "foo/bar/asset"
                         Sample.config Sample.start))))).
Proof.
  intros H. apply Forall_inv in H. destruct H as [obj H].
  vm_compute in H. discriminate H.
Qed.

(** C3, amended. For every request, whether its mapping ends with an error
    or not, every sequence that the mapping holds, before the extra
    resources and the signing, is the sequence of an object that the lister
    handed out for this request: there is a run of the lister among those of
    the request, made with the query of one of its physical prefixes and
    ended by the sentinel, that handed the object out, the base filename of
    the object matches the pattern of that prefix, and the sequence holds
    one clip of type [source] whose path is a slash, the bucket of the
    object, a slash and its key.  When the bucket has no slash, the cut of
    that path at its first two slashes, which is the cut the signing stage
    makes, gives exactly the empty segment, the bucket and the key, the key
    keeping the slashes it has. *)
Theorem listed_paths_are_locators (W : World) (original : string)
    (config : Config) (st : State) (m : mapping) (err : option error)
    (st' : State) :
  getPrefixMapping W original config st = ((m, err), st') ->
  Forall
    (fun sq =>
       exists obj i p,
         p ∈ getPrefixes original config /\
         length (listed st) <= i /\
         listed st' !! i = Some (listerQuery p) /\
         storage.stop (Objects W i (listerQuery p)) = Done /\
         obj ∈ storage.items (Objects W i (listerQuery p)) /\
         matches W (filterFor config p) obj = true /\
         sq = {| Clips :=
                   [{| Type_ := "source";
                       Path := "/" +:+ storage.Bucket obj +:+ "/" +:+
                               storage.Name obj |}] |} /\
         (GoStrings.slashes (storage.Bucket obj) = 0 ->
          GoStrings.SplitN
            ("/" +:+ storage.Bucket obj +:+ "/" +:+ storage.Name obj) "/" 3 =
          [""; storage.Bucket obj; storage.Name obj]))
    (Sequences m).
Proof.
  intros H. unfold getPrefixMapping in H.
  apply getPrefixMapping_loop_listed in H as (new & queries & Hm & _ & Hall).
  simpl in Hm. subst new.
  eapply Forall_impl; [exact Hall|]. simpl.
  intros sq (obj & i & p & Hp & Hi & Hq & Hd & Hin & Hmatch & ->).
  exists obj, i, p. repeat (split; [done|]). intros Hb.
  by apply (SplitN3_locator "").
Qed.

Lemma listed_paths_are_locators_sample :
  Forall
    (fun sq =>
       exists obj i p,
         p ∈ getPrefixes "foo/bar/asset" Sample.config /\
         length (listed Sample.start) <= i /\
         listed (snd (getPrefixMapping Sample.world "foo/bar/asset"
                        Sample.config Sample.start)) !! i =
           Some (listerQuery p) /\
         storage.stop (Objects Sample.world i (listerQuery p)) = Done /\
         obj ∈ storage.items (Objects Sample.world i (listerQuery p)) /\
         matches Sample.world (filterFor Sample.config p) obj = true /\
         sq = {| Clips :=
                   [{| Type_ := "source";
                       Path := "/" +:+ storage.Bucket obj +:+ "/" +:+
                               storage.Name obj |}] |} /\
         (GoStrings.slashes (storage.Bucket obj) = 0 ->
          GoStrings.SplitN
            ("/" +:+ storage.Bucket obj +:+ "/" +:+ storage.Name obj) "/" 3 =
          [""; storage.Bucket obj; storage.Name obj]))
    [sourceSequence "/media/foo/bar/asset_360p.mp4";
     sourceSequence "/media/foo/bar/asset_720p.mp4";
     sourceSequence "/media/subtitles/asset_360p.mp4"].
Proof.
  apply (listed_paths_are_locators Sample.world "foo/bar/asset" Sample.config
           Sample.start
           {| Sequences :=
                [sourceSequence "/media/foo/bar/asset_360p.mp4";
                 sourceSequence "/media/foo/bar/asset_720p.mp4";
                 sourceSequence "/media/subtitles/asset_360p.mp4"] |}
           None
           (snd (getPrefixMapping Sample.world "foo/bar/asset" Sample.config
                   Sample.start))).
  reflexivity.
Defined.

(** C4. For every physical-prefix expansion, with the runs of the lister
    numbered from the first attempt: when the run [j] (among the first five)
    is the first that ends with the sentinel, the expansion returns exactly
    the sequences of that run, after [j + 1] attempts that each sent the same
    query and started the listing anew; when none of the five runs ends with
    the sentinel, the expansion returns no sequences and the error of the
    fifth run, after five attempts. *)
Theorem expandPrefix_retry (W : World) (config : Config) (prefix : string)
    (st : State) :
  let q := listerQuery prefix in
  let run := attemptRun W st q in
  maxTry = 5 /\
  (forall j,
     j < maxTry ->
     storage.stop (run j) = Done ->
     (forall i, i < j -> storage.stop (run i) <> Done) ->
     expandPrefix W prefix config st =
     ((filtered W (filterFor config prefix) (storage.items (run j)), None),
      afterAttempts st q (S j))) /\
  ((forall j, j < maxTry -> storage.stop (run j) <> Done) ->
   expandPrefix W prefix config st =
   (([], Some (storage.stop (run (maxTry - 1)))), afterAttempts st q maxTry)).
Proof.
  intros q run. split; [done|]. rewrite expandPrefix_attempts. split.
  - intros j Hj Hdone Hbefore. by apply attempts_done.
  - intros Hall. by rewrite attempts_exhausted.
Qed.

Lemma expandPrefix_retry_third_attempt :
  expandPrefix (Sample.flaky 2) "foo/bar/asset" Sample.config Sample.start =
  (([sourceSequence "/media/foo/bar/asset_360p.mp4";
     sourceSequence "/media/foo/bar/asset_720p.mp4"], None),
   afterAttempts Sample.start (listerQuery "foo/bar/asset") 3).
Proof.
  apply (proj1 (proj2 (expandPrefix_retry (Sample.flaky 2) Sample.config
                         "foo/bar/asset" Sample.start)) 2).
  - unfold maxTry. lia.
  - reflexivity.
  - intros [|[|i]] Hi; [by vm_compute|by vm_compute|lia].
Defined.

(** C5. For every logical prefix and every configured list of alternate
    prefixes: the physical prefixes are the original prefix followed, in
    configuration order, by [path.Join] of each alternate prefix and the
    last segment of the original prefix (what follows its final slash); an
    alternate made of plain segments with trailing slashes and a plain last
    segment give the segments joined by single slashes, so [subtitles/] and
    [foo/bar/asset] give [subtitles/asset]; and the manifest of a mapping
    without error is the concatenation, in that order and with nothing
    removed, of the sequences of the expansions. *)
Theorem fan_out_order (W : World) (original : string) (config : Config)
    (st : State) :
  let lastPart := snd (GoPath.Split original) in
  let results := expansions W config (getPrefixes original config) st in
  getPrefixes original config =
    original ::
      ((fun alt => GoPath.Join [alt; lastPart]) <$> MapExtraPrefixes config) /\
  (GoStrings.slashes lastPart = 0 /\
   exists dir, original = dir +:+ lastPart /\
               (dir = "" \/ exists d, dir = d +:+ "/")) /\
  (forall segs k,
     segs <> [] -> Forall plainSegment segs -> plainSegment lastPart ->
     GoPath.Join [joinSegments segs +:+ slashRun k; lastPart] =
     joinSegments (segs ++ [lastPart])) /\
  getPrefixes "foo/bar/asset"
    {| BucketName := BucketName config;
       MapPrefix := MapPrefix config;
       ExtraResourcesToken := ExtraResourcesToken config;
       MapRegexFilter := MapRegexFilter config;
       MapRegexHDFilter := MapRegexHDFilter config;
       MapExtraPrefixes := ["subtitles/"];
       signConfig := signConfig config |} =
    ["foo/bar/asset"; "subtitles/asset"] /\
  (Forall (fun r => snd r = None) results ->
   fst (getPrefixMapping W original config st) =
   ({| Sequences := concat (fst <$> results) |}, None)) /\
  (forall m st',
     getPrefixMapping W original config st = ((m, None), st') ->
     Sequences m = concat (fst <$> results)).
Proof.
  intros lastPart results. split; [apply getPrefixes_map|].
  split; [|split; [|split; [|split]]].
  - destruct (Split_spec original) as (dir & file & E & Ho & Hs & Hd).
    subst lastPart. rewrite E. simpl. split; [done|]. by exists dir.
  - intros segs k Hne Hsegs Hlast. by apply Join_plain.
  - reflexivity.
  - intros Hall. unfold getPrefixMapping.
    by rewrite (getPrefixMapping_loop_ok W config _ {| Sequences := [] |} st).
  - intros m st' H. by apply getPrefixMapping_ok in H as [_ ->].
Qed.

Lemma fan_out_order_sample :
  fst (getPrefixMapping Sample.world "foo/bar/asset" Sample.config
         Sample.start) =
  ({| Sequences :=
        [sourceSequence "/media/foo/bar/asset_360p.mp4";
         sourceSequence "/media/foo/bar/asset_720p.mp4";
         sourceSequence "/media/subtitles/asset_360p.mp4"] |}, None).
Proof.
  apply (proj1 (proj2 (proj2 (proj2 (proj2
           (fan_out_order Sample.world "foo/bar/asset" Sample.config
              Sample.start)))))).
  vm_compute. repeat constructor.
Defined.

(** C6. For every GET request with a non-empty prefix: when the expansion
    of some physical prefix fails, the response is the error 500 whose body
    is the message of the error of a failed expansion; when all expansions
    succeed, signing is enabled and some clip of the manifest (the listed
    sequences followed by the extra resources) cannot be signed, the
    response is the error 500 whose body is the message of the error of a
    clip that cannot be signed.  In both cases the body is that line of
    text, and no manifest. *)
Theorem failure_is_500 (W : World) (config : Config) (r : Request)
    (st : State) :
  Method r = "GET" ->
  GoStrings.TrimLeft (URL_Path r) "/" <> "" ->
  let prefix := GoStrings.TrimLeft (URL_Path r) "/" in
  let results := expansions W config (getPrefixes prefix config) st in
  let manifest := concat (fst <$> results) ++ extraSequences r config in
  (Exists (fun res => snd res <> None) results ->
   exists seqs e,
     (seqs, Some e) ∈ results /\
     fst (getMapHandler W config r st) =
     {| StatusCode := 500;
        ContentType := "text/plain; charset=utf-8";
        Body := Text (Error e +:+ newline) |}) /\
  (Forall (fun res => snd res = None) results ->
   forall key path e,
     AccessID (signConfig config) <> "" ->
     PrivateKey (signConfig config) = Some key ->
     path ∈ clipPaths manifest ->
     signFails W (optionsAt (signConfig config) key (now st)) path e ->
     exists path' e',
       path' ∈ clipPaths manifest /\
       signFails W (optionsAt (signConfig config) key (now st)) path' e' /\
       fst (getMapHandler W config r st) =
       {| StatusCode := 500;
          ContentType := "text/plain; charset=utf-8";
          Body := Text (Error e' +:+ newline) |}).
Proof.
  intros Hget Hprefix prefix results manifest. split.
  - intros Hex.
    destruct (getPrefixMapping_loop_error W config _ {| Sequences := [] |} st
                Hex) as (m' & e & seqs & Hloop & Hdone & Hin).
    exists seqs, e. split; [done|]. rewrite getMapHandler_get by done.
    fold prefix. unfold getPrefixMapping.
    destruct (getPrefixMapping_loop _ _ _ _ _) as [[m1 err1] st1].
    simpl in Hloop. injection Hloop as -> ->. by destruct e.
  - intros Hall key path e Hid Hkey Hin Hfail.
    pose proof (getPrefixMapping_loop_ok W config _ {| Sequences := [] |} st
                  Hall) as Hok.
    pose proof (getPrefixMapping_loop_state W config
                  (getPrefixes prefix config) {| Sequences := [] |} st)
      as [Hnow _].
    rewrite getMapHandler_get by done. fold prefix. unfold getPrefixMapping.
    destruct (getPrefixMapping_loop _ _ _ _ _) as [[m1 err1] st1].
    simpl in Hok, Hnow. injection Hok as -> ->.
    rewrite (signedURLs_enabled W config _ st1 key) by done.
    rewrite appendExtraResources_sequences, Hnow. simpl. fold results manifest.
    destruct (signSeqList_fails W _ manifest st1 path e Hin Hfail)
      as [e' He'].
    destruct (signSeqList _ _ manifest st1) as [[seqs err] st2] eqn:E.
    simpl in He'. subst err.
    apply signSeqList_err in E as (path' & Hin' & Hf').
    by exists path', e'.
Qed.

Lemma failure_is_500_sample :
  exists seqs e,
    (seqs, Some e) ∈
      expansions (Sample.flaky 5) Sample.config
        (getPrefixes "foo/bar/asset" Sample.config) Sample.start /\
    fst (getMapHandler (Sample.flaky 5) Sample.config
           (Sample.request "/foo/bar/asset" None) Sample.start) =
    {| StatusCode := 500;
       ContentType := "text/plain; charset=utf-8";
       Body := Text (Error e +:+ newline) |}.
Proof.
  apply (proj1 (failure_is_500 (Sample.flaky 5) Sample.config
                  (Sample.request "/foo/bar/asset" None) Sample.start
                  eq_refl ltac:(by vm_compute))).
  apply Exists_cons_hd. by vm_compute.
Defined.

(** C7. For every request: the extra-resource stage appends to the
    manifest, after the sequences it holds, one sequence of one clip of type
    [source] for every non-empty token of the comma-separated value of the
    configured query parameter, in order and with the token as the path;
    the value [a,,b] appends the two sequences of [a] and [b]; an absent
    parameter leaves the manifest as it is.  With signing disabled the
    response of a request whose expansions succeed holds the sequences of
    the expansions followed by these, whatever the filter patterns are. *)
Theorem extra_resources_appended (W : World) (config : Config) (r : Request)
    (m : mapping) (st : State) :
  let value := Values_Get (URL_Query r) (ExtraResourcesToken config) in
  let prefix := GoStrings.TrimLeft (URL_Path r) "/" in
  let results := expansions W config (getPrefixes prefix config) st in
  Sequences (appendExtraResources r config m) =
    Sequences m ++
    (sourceSequence <$>
       List.filter (fun token => negb (bool_decide (token = "")))
         (GoStrings.Split value ",")) /\
  (forall token,
     sourceSequence token =
     {| Clips := [{| Type_ := "source"; Path := token |}] |}) /\
  (value = "a,,b" ->
   Sequences (appendExtraResources r config m) =
   Sequences m ++ [sourceSequence "a"; sourceSequence "b"]) /\
  (URL_Query r !! ExtraResourcesToken config = None ->
   appendExtraResources r config m = m) /\
  (Method r = "GET" -> prefix <> "" ->
   AccessID (signConfig config) = "" \/
     PrivateKey (signConfig config) = None ->
   Forall (fun r => snd r = None) results ->
   fst (getMapHandler W config r st) =
   {| StatusCode := 200;
      ContentType := "application/json";
      Body := JSON {| Sequences := concat (fst <$> results) ++
                                   extraSequences r config |} |}).
Proof.
  intros value prefix results.
  split; [apply appendExtraResources_sequences|].
  split; [done|]. split; [|split].
  - intros Hv. rewrite appendExtraResources_sequences. unfold extraSequences.
    fold value. by rewrite Hv.
  - intros Habsent. unfold appendExtraResources, Values_Get.
    by rewrite Habsent.
  - intros Hget Hprefix Hoff Hall. rewrite getMapHandler_get by done.
    fold prefix. unfold getPrefixMapping.
    pose proof (getPrefixMapping_loop_ok W config _ {| Sequences := [] |} st
                  Hall) as Hok.
    destruct (getPrefixMapping_loop _ _ _ _ _) as [[m1 err1] st1].
    simpl in Hok. injection Hok as -> ->.
    rewrite signedURLs_disabled by done. simpl. do 2 f_equal.
    destruct (appendExtraResources r config _) as [seqs] eqn:E.
    apply (f_equal Sequences) in E.
    rewrite appendExtraResources_sequences in E. simpl in E. by subst seqs.
Qed.

Lemma extra_resources_appended_sample :
  fst (getMapHandler Sample.world Sample.config
         (Sample.request "/foo/bar/asset" (Some "a,,b")) Sample.start) =
  {| StatusCode := 200;
     ContentType := "application/json";
     Body :=
       JSON {| Sequences :=
                 [sourceSequence "/media/foo/bar/asset_360p.mp4";
                  sourceSequence "/media/foo/bar/asset_720p.mp4";
                  sourceSequence "/media/subtitles/asset_360p.mp4";
                  sourceSequence "a"; sourceSequence "b"] |} |}.
Proof.
  apply (proj2 (proj2 (proj2 (proj2
           (extra_resources_appended Sample.world Sample.config
              (Sample.request "/foo/bar/asset" (Some "a,,b"))
              {| Sequences := [] |} Sample.start))))).
  - reflexivity.
  - by vm_compute.
  - by left.
  - vm_compute. repeat constructor.
Defined.





(** C10, as the specification states it, fails: an alternate location
    written [subtitles//en/] is listed at [subtitles/en], which is not that
    prefix without its trailing slash. *)
Lemma alternate_is_cleaned_not_trimmed :
  ~ alternatesTrimmed "foo/" Sample.doubledSlash.
Proof. unfold alternatesTrimmed. vm_compute. discriminate. Qed.

(** C10, amended. For every logical prefix that ends with a slash, the last
    segment used for the fan-out is empty, so each alternate physical prefix
    is [path.Join] of the alternate prefix and the empty string: the empty
    prefix for an empty alternate, and otherwise the alternate prefix in
    its cleaned form, which for an alternate made of plain segments
    separated by single slashes is that alternate without its trailing
    slashes ([subtitles/] gives [subtitles]).  The alternate location is
    then listed at its own root. *)
Theorem trailing_slash_fan_out (original : string) (config : Config) :
  (exists d, original = d +:+ "/") ->
  snd (GoPath.Split original) = "" /\
  getPrefixes original config =
    original ::
      ((fun alt => if bool_decide (alt = "") then ""
                   else GoPath.Clean (alt +:+ "/"))
         <$> MapExtraPrefixes config) /\
  (forall segs k,
     segs <> [] -> Forall plainSegment segs ->
     GoPath.Clean ((joinSegments segs +:+ slashRun k) +:+ "/") =
     joinSegments segs) /\
  GoPath.Clean ("subtitles/" +:+ "/") = "subtitles".
Proof.
  intros [d ->].
  assert (snd (GoPath.Split (d +:+ "/")) = "") as Hlast.
  { change (d +:+ "/") with (d +:+ "/" +:+ "").
    rewrite Split_dir; reflexivity. }
  split; [done|]. split; [|split; [|reflexivity]].
  - rewrite getPrefixes_map, Hlast. f_equal. apply list_fmap_ext.
    intros _ alt _. apply Join_empty_r.
  - intros segs k Hne Hsegs.
    pose proof (Join_plain_empty segs k Hne Hsegs) as HJ.
    rewrite Join_empty_r in HJ. rewrite bool_decide_eq_false_2 in HJ; [done|].
    destruct (exists_last Hne) as [init [l ->]].
    apply Forall_app in Hsegs as [_ Hl]. apply Forall_inv in Hl.
    by apply plain_join_not_empty.
Qed.

Lemma trailing_slash_fan_out_sample :
  getPrefixes "foo/bar/" Sample.config = ["foo/bar/"; "subtitles"].
Proof.
  apply (proj1 (proj2 (trailing_slash_fan_out "foo/bar/" Sample.config
                         (ex_intro _ "foo/bar" eq_refl)))).
Defined.

(** * Further properties of the code *)

Module ResponseFacts.

#[local] Arguments String.append : simpl nomatch.

(** [strings.TrimLeft] with the cutset [/] leaves nothing exactly of the
    strings made of slashes only. *)
Lemma TrimLeft_slash_empty s :
  GoStrings.TrimLeft s "/" = "" <-> GoStrings.slashes s = String.length s.
Proof.
  induction s as [|c s IH]; [done|]. cbn [GoStrings.TrimLeft GoStrings.inCutset].
  cbn [GoStrings.slashes String.length]. rewrite orb_false_r.
  pose proof (slashes_le_length s).
  destruct (Ascii.eqb c "/"); [rewrite IH; lia|]. split; [done|lia].
Qed.

Lemma TrimLeft_slash_head s c s' :
  GoStrings.TrimLeft s "/" = String c s' -> c <> "/"%char.
Proof.
  induction s as [|d s IH]; [done|]. cbn [GoStrings.TrimLeft GoStrings.inCutset].
  rewrite orb_false_r. destruct (Ascii.eqb d "/") eqn:E; [done|].
  intros [= -> _]. by apply Ascii.eqb_neq.
Qed.

(** The mapping of a request never ends with the sentinel as its error. *)
Lemma getPrefixMapping_loop_not_Done (W : World) config prefixes m st :
  snd (fst (getPrefixMapping_loop W config prefixes m st)) <> Some Done.
Proof.
  destruct (Forall_Exists_dec (fun r => snd r = None)
              (fun r => snd r <> None)
              (fun r : list sequence * option error => decide (snd r = None))
              (expansions W config prefixes st)) as [Hall|Hex].
  - by rewrite (getPrefixMapping_loop_ok W config prefixes m st Hall).
  - destruct (getPrefixMapping_loop_error W config prefixes m st Hex)
      as (m' & e & seqs & -> & Hne & _). simpl. congruence.
Qed.

(** What a GET request with a non-empty prefix is answered. *)
Lemma getMapHandler_get_cases (W : World) config r st :
  Method r = "GET" ->
  GoStrings.TrimLeft (URL_Path r) "/" <> "" ->
  (exists msg, fst (getMapHandler W config r st) = http_Error msg 500) \/
  (exists m, fst (getMapHandler W config r st) =
             {| StatusCode := 200; ContentType := "application/json";
                Body := JSON m |}).
Proof.
  intros Hget Hp. rewrite getMapHandler_get by done.
  destruct (getPrefixMapping _ _ _ _) as [[m [[|msg]|]] st1].
  - destruct (signedURLs _ _ _ _) as [[m' [e|]] st2]; eauto.
  - eauto.
  - destruct (signedURLs _ _ _ _) as [[m' [e|]] st2]; eauto.
Qed.

End ResponseFacts.

Import ResponseFacts.

(** X1. The map handler answers 405 exactly to the requests whose method is
    not GET; such a request is answered [method not allowed] and nothing is
    listed, signed or read from the clock for it. *)
Theorem method_not_allowed (W : World) (config : Config) (r : Request)
    (st : State) :
  (StatusCode (fst (getMapHandler W config r st)) = 405 <->
   Method r <> "GET") /\
  (Method r <> "GET" ->
   getMapHandler W config r st =
   ({| StatusCode := 405;
       ContentType := "text/plain; charset=utf-8";
       Body := Text ("method not allowed" +:+ newline) |}, st)).
Proof.
  assert (Method r <> "GET" ->
          getMapHandler W config r st =
          (http_Error "method not allowed" 405, st)) as Hreject.
  { intros H. unfold getMapHandler. by rewrite bool_decide_eq_true_2. }
  split; [|done]. split; [|by intros H; rewrite Hreject].
  intros Hcode H. revert Hcode.
  destruct (decide (GoStrings.TrimLeft (URL_Path r) "/" = "")) as [Hp|Hp].
  - unfold getMapHandler. rewrite bool_decide_eq_false_2 by (by intros []).
    by rewrite bool_decide_eq_true_2.
  - destruct (getMapHandler_get_cases W config r st H Hp) as [[? ->]|[? ->]];
      done.
Qed.

Lemma method_not_allowed_post :
  getMapHandler Sample.world Sample.config
    {| Method := "POST"; URL_Path := "/foo/bar/asset"; URL_Query := ∅ |}
    Sample.start =
  ({| StatusCode := 405;
      ContentType := "text/plain; charset=utf-8";
      Body := Text ("method not allowed" +:+ newline) |}, Sample.start).
Proof.
  apply (proj2 (method_not_allowed Sample.world Sample.config
                  {| Method := "POST"; URL_Path := "/foo/bar/asset";
                     URL_Query := ∅ |} Sample.start)).
  discriminate.
Defined.

(** X2. A GET request is answered 400 exactly when its path is made of
    slashes only (the empty path included); it is then answered
    [prefix cannot be empty] and nothing is listed or signed.  In every
    other GET request the prefix handed to the mapping does not start with a
    slash. *)
Theorem empty_prefix_rejected (W : World) (config : Config) (r : Request)
    (st : State) :
  Method r = "GET" ->
  (StatusCode (fst (getMapHandler W config r st)) = 400 <->
   GoStrings.slashes (URL_Path r) = String.length (URL_Path r)) /\
  (GoStrings.slashes (URL_Path r) = String.length (URL_Path r) ->
   getMapHandler W config r st =
   ({| StatusCode := 400;
       ContentType := "text/plain; charset=utf-8";
       Body := Text ("prefix cannot be empty" +:+ newline) |}, st)) /\
  (forall c prefix,
     GoStrings.TrimLeft (URL_Path r) "/" = String c prefix -> c <> "/"%char).
Proof.
  intros Hget.
  assert (GoStrings.slashes (URL_Path r) = String.length (URL_Path r) ->
          getMapHandler W config r st =
          (http_Error "prefix cannot be empty" 400, st)) as Hreject.
  { intros H. apply TrimLeft_slash_empty in H. unfold getMapHandler.
    rewrite bool_decide_eq_false_2 by (by intros []).
    by rewrite bool_decide_eq_true_2. }
  split; [|split; [done|]].
  - split; [|by intros H; rewrite Hreject].
    intros Hcode. apply TrimLeft_slash_empty.
    destruct (decide (GoStrings.TrimLeft (URL_Path r) "/" = "")) as [Hp|Hp];
      [done|].
    destruct (getMapHandler_get_cases W config r st Hget Hp)
      as [[? H]|[? H]]; by rewrite H in Hcode.
  - intros c prefix. apply TrimLeft_slash_head.
Qed.

Lemma empty_prefix_rejected_slashes :
  getMapHandler Sample.world Sample.config (Sample.request "///" None)
    Sample.start =
  ({| StatusCode := 400;
      ContentType := "text/plain; charset=utf-8";
      Body := Text ("prefix cannot be empty" +:+ newline) |}, Sample.start).
Proof.
  apply (proj1 (proj2 (empty_prefix_rejected Sample.world Sample.config
                         (Sample.request "///" None) Sample.start eq_refl))).
  reflexivity.
Defined.

(** X3. Whatever the request, the map handler answers with one of the
    statuses 200, 400, 405 and 500; the body is a JSON manifest exactly when
    the status is 200, and then the content type is [application/json];
    every other answer is a line of plain text. *)
Theorem response_shape (W : World) (config : Config) (r : Request)
    (st : State) :
  let response := fst (getMapHandler W config r st) in
  (StatusCode response = 200 /\
   ContentType response = "application/json" /\
   exists m, Body response = JSON m) \/
  (StatusCode response ∈ [400; 405; 500] /\
   ContentType response = "text/plain; charset=utf-8" /\
   exists msg, Body response = Text (msg +:+ newline)).
Proof.
  intros response. subst response.
  destruct (decide (Method r = "GET")) as [Hget|Hget].
  - destruct (decide (GoStrings.TrimLeft (URL_Path r) "/" = "")) as [Hp|Hp].
    + right. unfold getMapHandler.
      rewrite bool_decide_eq_false_2 by (by intros []).
      rewrite bool_decide_eq_true_2 by done. simpl.
      split; [set_solver|]. split; [done|by eexists].
    + destruct (getMapHandler_get_cases W config r st Hget Hp)
        as [[msg ->]|[m ->]].
      * right. simpl. split; [set_solver|]. split; [done|by eexists].
      * left. simpl. split; [done|]. split; [done|by eexists].
  - right. unfold getMapHandler. rewrite bool_decide_eq_true_2 by done.
    simpl. split; [set_solver|]. split; [done|by eexists].
Qed.

Module RoutingFacts.

#[local] Arguments String.append : simpl nomatch.

Lemma prefix_false sub s :
  String.prefix sub s = false <-> forall rest, s <> sub +:+ rest.
Proof.
  split.
  - intros H rest ->. by rewrite prefix_append in H.
  - intros H. destruct (String.prefix sub s) eqn:E; [|done].
    apply prefix_inv in E. by apply H in E.
Qed.

(** [strings.Replace] with [n = 1] takes a leading [old] away. *)
Lemma Replace_leading old rest :
  old <> "" -> GoStrings.Replace (old +:+ rest) old "" 1 = rest.
Proof.
  intros Hold.
  assert (GoStrings.Index (old +:+ rest) old = Some 0) as Hi.
  { destruct (old +:+ rest) eqn:E.
    - rewrite Index_nil, <- E. by rewrite prefix_append.
    - rewrite Index_cons, <- E. by rewrite prefix_append. }
  rewrite (Replace_first _ old "" 0) by done. simpl.
  by rewrite drop_append.
Qed.

Lemma Request_eta r :
  {| Method := Method r; URL_Path := URL_Path r; URL_Query := URL_Query r |}
  = r.
Proof. by destruct r. Qed.

End RoutingFacts.

Import RoutingFacts.

(** X4. With a non-empty map prefix, a request whose path starts with the
    map prefix is answered by the map handler for the rest of the path: the
    leading map prefix is taken away, and only that occurrence, whatever the
    rest holds. *)
Theorem map_prefix_stripped (W : World) (config : Config) (r : Request)
    (st : State) (rest : string) :
  MapPrefix config <> "" ->
  URL_Path r = MapPrefix config +:+ rest ->
  getHandler W config r st =
  getMapHandler W config
    {| Method := Method r; URL_Path := rest; URL_Query := URL_Query r |} st.
Proof.
  intros Hmap Hpath. unfold getHandler, GoStrings.HasPrefix.
  rewrite Hpath, prefix_append. by rewrite Replace_leading.
Qed.

Lemma map_prefix_stripped_sample :
  getHandler Sample.world Sample.config
    (Sample.request "/map/foo/map/asset" None) Sample.start =
  getMapHandler Sample.world Sample.config
    (Sample.request "foo/map/asset" None) Sample.start.
Proof.
  apply (map_prefix_stripped Sample.world Sample.config
           (Sample.request "/map/foo/map/asset" None) Sample.start
           "foo/map/asset").
  - discriminate.
  - reflexivity.
Defined.

(** X5. With an empty map prefix, which is the default, every request is
    answered by the map handler with its path as it is; the path [/] is then
    no health check: a GET of it is answered 400. *)
Theorem empty_map_prefix_shadows_health_check (W : World) (config : Config)
    (r : Request) (st : State) :
  MapPrefix config = "" ->
  getHandler W config r st = getMapHandler W config r st /\
  (Method r = "GET" -> URL_Path r = "/" ->
   getHandler W config r st =
   ({| StatusCode := 400;
       ContentType := "text/plain; charset=utf-8";
       Body := Text ("prefix cannot be empty" +:+ newline) |}, st)).
Proof.
  intros Hmap.
  assert (getHandler W config r st = getMapHandler W config r st) as Heq.
  { unfold getHandler, GoStrings.HasPrefix. rewrite Hmap.
    assert (String.prefix "" (URL_Path r) = true) as -> by by destruct (URL_Path r).
    unfold GoStrings.Replace. rewrite bool_decide_eq_true_2 by done.
    cbn [orb]. by rewrite Request_eta. }
  split; [done|]. intros Hget Hpath. rewrite Heq. unfold getMapHandler.
  rewrite bool_decide_eq_false_2 by (by intros []).
  rewrite Hpath. by rewrite bool_decide_eq_true_2.
Qed.

Lemma empty_map_prefix_shadows_health_check_sample :
  getHandler Sample.world Cases.defaults
    {| Method := "GET"; URL_Path := "/"; URL_Query := ∅ |} Sample.start =
  ({| StatusCode := 400;
      ContentType := "text/plain; charset=utf-8";
      Body := Text ("prefix cannot be empty" +:+ newline) |}, Sample.start).
Proof.
  apply (proj2 (empty_map_prefix_shadows_health_check Sample.world
                  Cases.defaults
                  {| Method := "GET"; URL_Path := "/"; URL_Query := ∅ |}
                  Sample.start eq_refl)); reflexivity.
Defined.

(** X6. A request whose path does not start with the map prefix never
    reaches the mapping: the path [/] is answered 200 with an empty body,
    every other path 404 with the text [not found], and nothing is listed or
    signed. *)
Theorem unmapped_paths (W : World) (config : Config) (r : Request)
    (st : State) :
  (forall rest, URL_Path r <> MapPrefix config +:+ rest) ->
  (URL_Path r = "/" ->
   getHandler W config r st =
   ({| StatusCode := 200; ContentType := ""; Body := NoBody |}, st)) /\
  (URL_Path r <> "/" ->
   getHandler W config r st =
   ({| StatusCode := 404;
       ContentType := "text/plain; charset=utf-8";
       Body := Text ("not found" +:+ newline) |}, st)).
Proof.
  intros Hno. apply prefix_false in Hno. unfold getHandler, GoStrings.HasPrefix.
  rewrite Hno. split; intros Hpath.
  - by rewrite bool_decide_eq_true_2.
  - by rewrite bool_decide_eq_false_2.
Qed.

Lemma unmapped_paths_sample :
  getHandler Sample.world Sample.config (Sample.request "/favicon.ico" None)
    Sample.start =
  ({| StatusCode := 404;
      ContentType := "text/plain; charset=utf-8";
      Body := Text ("not found" +:+ newline) |}, Sample.start).
Proof.
  apply (proj2 (unmapped_paths Sample.world Sample.config
                  (Sample.request "/favicon.ico" None) Sample.start
                  ltac:(intros rest H; discriminate H))).
  discriminate.
Defined.

(** X7. With signing disabled (no access identity or no private key) the map
    handler answers every request, and leaves the state, exactly as the
    handler of the earlier version of the engine, which has no signing
    stage: the manifest is sent as the mapping and the extra resources made
    it, and the signer is never called. *)
Theorem unsigned_handler_is_earlier (W : World) (config : Config)
    (r : Request) (st : State) :
  AccessID (signConfig config) = "" \/
    PrivateKey (signConfig config) = None ->
  getMapHandler W config r st = Earlier.getMapHandler W config r st /\
  signed (snd (getMapHandler W config r st)) = signed st.
Proof.
  intros Hoff.
  assert (getMapHandler W config r st = Earlier.getMapHandler W config r st)
    as Heq.
  { unfold getMapHandler, Earlier.getMapHandler.
    case_bool_decide; [done|]. case_bool_decide; [done|]. unfold bind.
    destruct (getPrefixMapping _ _ _ _) as [[m [[|msg]|]] st1]; try done;
      by rewrite signedURLs_disabled. }
  split; [done|]. rewrite Heq. unfold Earlier.getMapHandler.
  case_bool_decide; [done|]. case_bool_decide; [done|]. unfold bind.
  pose proof (getPrefixMapping_loop_state W config
                (getPrefixes (GoStrings.TrimLeft (URL_Path r) "/") config)
                {| Sequences := [] |} st) as [_ Hs].
  unfold getPrefixMapping.
  destruct (getPrefixMapping_loop _ _ _ _ _) as [[m [[|msg]|]] st1]; done.
Qed.

Lemma unsigned_handler_is_earlier_sample :
  getMapHandler Sample.world Sample.config
    (Sample.request "/foo/bar/asset" (Some "a,,b")) Sample.start =
  Earlier.getMapHandler Sample.world Sample.config
    (Sample.request "/foo/bar/asset" (Some "a,,b")) Sample.start.
Proof.
  apply (proj1 (unsigned_handler_is_earlier Sample.world Sample.config
                  (Sample.request "/foo/bar/asset" (Some "a,,b"))
                  Sample.start (or_introl eq_refl))).
Defined.

Module PartialFacts.

Lemma signList_error_shape (W : World) opts clips st clips' e st' :
  signList W opts clips st = ((clips', Some e), st') ->
  signedUpTo W opts e clips clips'.
Proof.
  revert st clips' st'; induction clips as [|cl clips IH];
    intros st clips' st'; cbn [signList]; unfold bind, ret; [done|].
  destruct (signedPath W (Path cl) opts st) as [[p [e'|]] st1] eqn:E1.
  - intros [= <- <- <-]. exists [], [], cl, clips.
    split; [done|]. split; [done|]. split; [constructor|].
    by eapply signedPath_err.
  - destruct (signList W opts clips st1) as [[clips1 err] st2] eqn:E2.
    intros [= <- -> <-].
    destruct (IH _ _ _ E2) as (before & before' & cl0 & rest & -> & -> & H & Hf).
    exists (cl :: before), ({| Type_ := Type_ cl; Path := p |} :: before'),
      cl0, rest.
    split; [done|]. split; [done|]. split; [|done]. constructor; [|done].
    split; [done|]. by eapply signedPath_ok.
Qed.

Lemma signSeqList_error_shape (W : World) opts seqs st seqs' e st' :
  signSeqList W opts seqs st = ((seqs', Some e), st') ->
  exists before before' sq clips' after,
    seqs = before ++ sq :: after /\
    seqs' = before' ++ {| Clips := clips' |} :: after /\
    Forall2 (fun s s' => Forall2 (signedClip W opts) (Clips s) (Clips s'))
      before before' /\
    signedUpTo W opts e (Clips sq) clips'.
Proof.
  revert st seqs' st'; induction seqs as [|sq seqs IH];
    intros st seqs' st'; cbn [signSeqList]; unfold bind, ret; [done|].
  destruct (signList W opts (Clips sq) st) as [[clips [e'|]] st1] eqn:E1.
  - intros [= <- <- <-]. exists [], [], sq, clips, seqs.
    split; [done|]. split; [done|]. split; [constructor|].
    by eapply signList_error_shape.
  - destruct (signSeqList W opts seqs st1) as [[seqs1 err] st2] eqn:E2.
    intros [= <- -> <-].
    destruct (IH _ _ _ E2)
      as (before & before' & sq0 & clips0 & after & -> & -> & H & Hf).
    exists (sq :: before), ({| Clips := clips |} :: before'), sq0, clips0, after.
    split; [done|]. split; [done|]. split; [|done]. constructor; [|done].
    by eapply signList_ok.
Qed.

Lemma afterExpansions_app (W : World) config ps1 ps2 st :
  afterExpansions W config (ps1 ++ ps2) st =
  afterExpansions W config ps2 (afterExpansions W config ps1 st).
Proof. revert st; induction ps1 as [|p ps1 IH]; intros st; [done|]. apply IH. Qed.

(** A mapping that fails: where its loop stopped. *)
Lemma getPrefixMapping_loop_failure (W : World) config prefixes m st m' e st' :
  getPrefixMapping_loop W config prefixes m st = ((m', Some e), st') ->
  exists ps1 p ps2,
    prefixes = ps1 ++ p :: ps2 /\
    Forall (fun r => snd r = None) (expansions W config ps1 st) /\
    Sequences m' =
      Sequences m ++ concat (fst <$> expansions W config ps1 st) /\
    expandPrefix W p config (afterExpansions W config ps1 st) =
      (([], Some e), st').
Proof.
  revert m st; induction prefixes as [|p prefixes IH]; intros m st; [done|].
  cbn [getPrefixMapping_loop]. unfold bind.
  destruct (expandPrefix W p config st) as [[seqs [e'|]] st1] eqn:E.
  - intros [= <- <- <-]. exists [], p, prefixes. split; [done|].
    split; [constructor|]. split; [by rewrite app_nil_r|].
    simpl. destruct (expandPrefix_error _ _ _ _ _ _ _ E) as (-> & _). done.
  - intros H. destruct (IH _ _ H) as (ps1 & p' & ps2 & -> & Hall & Hm & Hp).
    exists (p :: ps1), p', ps2. split; [done|].
    cbn [expansions afterExpansions]. rewrite E. simpl.
    split; [by constructor|]. split; [|done].
    rewrite Hm. simpl. by rewrite app_assoc.
Qed.

(** An expansion either reaches the sentinel at one of its five attempts or
    makes all five. *)
Lemma expandPrefix_cases (W : World) config p st :
  (exists j,
     j < maxTry /\
     expandPrefix W p config st =
     ((filtered W (filterFor config p)
         (storage.items (attemptRun W st (listerQuery p) j)), None),
      afterAttempts st (listerQuery p) (S j))) \/
  expandPrefix W p config st =
  (([], Some (storage.stop (attemptRun W st (listerQuery p) (maxTry - 1)))),
   afterAttempts st (listerQuery p) maxTry).
Proof.
  rewrite expandPrefix_attempts. unfold listerQuery.
  set (q := {| storage.Prefix := listerPrefix p; storage.Delimiter := "/" |}).
  destruct (first_done_dec
              (fun j => storage.stop (attemptRun W st q j)) maxTry)
    as [(j & Hj & Hd & Hb)|Hall].
  - left. exists j. split; [done|]. by apply attempts_done.
  - right. by rewrite attempts_exhausted.
Qed.

End PartialFacts.

Import PartialFacts.

(** X8. When signing is enabled and fails, the mapping that [signedURLs]
    returns with the error is partly signed, since the clips are
    overwritten in place: the sequences before the one that holds the first
    clip that cannot be signed are signed, in that sequence the clips before
    that clip are signed, and that clip, the clips after it and the
    sequences after it are as they were. *)
Theorem signedURLs_error_leaves_partial_signing (W : World) (config : Config)
    (m m' : mapping) (st st' : State) (key : string) (e : error) :
  AccessID (signConfig config) <> "" ->
  PrivateKey (signConfig config) = Some key ->
  signedURLs W config m st = ((m', Some e), st') ->
  let opts := optionsAt (signConfig config) key (now st) in
  exists before before' sq clips' after,
    Sequences m = before ++ sq :: after /\
    Sequences m' = before' ++ {| Clips := clips' |} :: after /\
    Forall2 (fun s s' => Forall2 (signedClip W opts) (Clips s) (Clips s'))
      before before' /\
    signedUpTo W opts e (Clips sq) clips'.
Proof.
  intros Hid Hkey. rewrite (signedURLs_enabled W config m st key) by done.
  destruct (signSeqList _ _ _ _) as [[seqs err] st1] eqn:E.
  intros [= <- -> <-] opts. by eapply signSeqList_error_shape.
Qed.

Lemma signedURLs_error_leaves_partial_signing_sample :
  exists before before' sq clips' after,
    Sequences Cases.lockedSecond = before ++ sq :: after /\
    Sequences
      (fst (fst (signedURLs Sample.world Sample.signingConfig
                   Cases.lockedSecond Sample.start))) =
      before' ++ {| Clips := clips' |} :: after /\
    Forall2
      (fun s s' =>
         Forall2 (signedClip Sample.world Sample.options) (Clips s) (Clips s'))
      before before' /\
    signedUpTo Sample.world Sample.options (Err "storage: cannot sign")
      (Clips sq) clips'.
Proof.
  apply (signedURLs_error_leaves_partial_signing Sample.world
           Sample.signingConfig Cases.lockedSecond
           (fst (fst (signedURLs Sample.world Sample.signingConfig
                        Cases.lockedSecond Sample.start)))
           Sample.start
           (snd (signedURLs Sample.world Sample.signingConfig
                   Cases.lockedSecond Sample.start))
           "secret!" (Err "storage: cannot sign")).
  - discriminate.
  - reflexivity.
  - reflexivity.
Defined.

(** X9. A mapping that fails stops at the first physical prefix whose
    expansion fails: the expansions of the prefixes before it succeeded and
    their sequences are what the returned mapping holds, the error is that
    of the fifth run of the failing prefix, and the state is the one right
    after its five attempts, so no prefix after it is sent to the lister. *)
Theorem failing_mapping_stops (W : World) (original : string)
    (config : Config) (st st' : State) (m : mapping) (e : error) :
  getPrefixMapping W original config st = ((m, Some e), st') ->
  exists ps1 p ps2,
    getPrefixes original config = ps1 ++ p :: ps2 /\
    Forall (fun r => snd r = None) (expansions W config ps1 st) /\
    Sequences m = concat (fst <$> expansions W config ps1 st) /\
    e = storage.stop
          (attemptRun W (afterExpansions W config ps1 st) (listerQuery p)
             (maxTry - 1)) /\
    e <> Done /\
    st' = afterAttempts (afterExpansions W config ps1 st) (listerQuery p)
            maxTry.
Proof.
  intros H. apply getPrefixMapping_loop_failure in H
    as (ps1 & p & ps2 & Hps & Hall & Hm & Hp).
  exists ps1, p, ps2. split; [done|]. split; [done|]. split; [done|].
  destruct (expandPrefix_error _ _ _ _ _ _ _ Hp) as (_ & Hne & He).
  split; [done|]. split; [done|].
  destruct (expandPrefix_cases W config p (afterExpansions W config ps1 st))
    as [(j & _ & H)|H]; rewrite H in Hp; by injection Hp.
Qed.

Lemma failing_mapping_stops_sample :
  exists ps1 p ps2,
    getPrefixes "foo/bar/asset" Cases.twoAlternates = ps1 ++ p :: ps2 /\
    Forall (fun r => snd r = None)
      (expansions Cases.alternateDown Cases.twoAlternates ps1 Sample.start) /\
    Sequences
      (fst (fst (getPrefixMapping Cases.alternateDown "foo/bar/asset"
                   Cases.twoAlternates Sample.start))) =
      concat (fst <$> expansions Cases.alternateDown Cases.twoAlternates ps1
                        Sample.start) /\
    Err "backend error" =
      storage.stop
        (attemptRun Cases.alternateDown
           (afterExpansions Cases.alternateDown Cases.twoAlternates ps1
              Sample.start) (listerQuery p) (maxTry - 1)) /\
    Err "backend error" <> Done /\
    snd (getPrefixMapping Cases.alternateDown "foo/bar/asset"
           Cases.twoAlternates Sample.start) =
      afterAttempts
        (afterExpansions Cases.alternateDown Cases.twoAlternates ps1
           Sample.start) (listerQuery p) maxTry.
Proof.
  apply (failing_mapping_stops Cases.alternateDown "foo/bar/asset"
           Cases.twoAlternates Sample.start).
  reflexivity.
Defined.

Module BoundFacts.

(** The queries of the loop of [getPrefixMapping]. *)
Lemma getPrefixMapping_loop_queries (W : World) config prefixes m st :
  exists queries,
    listed (snd (getPrefixMapping_loop W config prefixes m st)) =
      listed st ++ queries /\
    length queries <= maxTry * length prefixes /\
    Forall (fun q => exists p, p ∈ prefixes /\ q = listerQuery p) queries.
Proof.
  revert m st; induction prefixes as [|p prefixes IH]; intros m st.
  - exists []. simpl. rewrite app_nil_r. split; [done|]. split; [lia|done].
  - cbn [getPrefixMapping_loop]. unfold bind.
    destruct (expandPrefix_afterAttempts W config p st) as (k & Hk & Hst & _).
    destruct (expandPrefix W p config st) as [[seqs err] st1]. simpl in Hst.
    assert (Forall (fun q => exists p0, p0 ∈ p :: prefixes /\ q = listerQuery p0)
              (replicate k (listerQuery p))) as Hrep.
    { apply Forall_replicate. exists p. split; [apply list_elem_of_here|done]. }
    destruct err as [e|].
    + exists (replicate k (listerQuery p)). subst st1. simpl.
      split; [done|]. rewrite length_replicate. split; [|done].
      simpl length. unfold maxTry in *. lia.
    + destruct (IH {| Sequences := Sequences m ++ seqs |} st1)
        as (queries & Hq & Hlen & Hall).
      exists (replicate k (listerQuery p) ++ queries). rewrite Hq. subst st1.
      simpl. split; [by rewrite app_assoc|]. split.
      * rewrite length_app, length_replicate. simpl length.
        unfold maxTry in *. lia.
      * apply Forall_app. split; [done|].
        eapply Forall_impl; [exact Hall|]. intros q (p0 & Hin & ->).
        exists p0. split; [by apply list_elem_of_further|done].
Qed.

Lemma signedURLs_listed (W : World) config m st :
  listed (snd (signedURLs W config m st)) = listed st.
Proof.
  destruct (decide (AccessID (signConfig config) = "")) as [Hid|Hid].
  { rewrite signedURLs_disabled; [done|by left]. }
  destruct (PrivateKey (signConfig config)) as [key|] eqn:Hkey.
  2: { rewrite signedURLs_disabled; [done|by right]. }
  rewrite (signedURLs_enabled W config m st key) by done.
  pose proof (signSeqList_signsWith W
                (optionsAt (signConfig config) key (now st)) (Sequences m) st)
    as [Hl _].
  by destruct (signSeqList _ _ _ _) as [[seqs err] st'].
Qed.

(** At most one request to the signer for a path, for a clip, for a
    sequence of clips. *)
Lemma signedPath_calls_le (W : World) opts path st :
  length (signed (snd (signedPath W path opts st))) <= S (length (signed st)) /\
  length (signed st) <= length (signed (snd (signedPath W path opts st))).
Proof.
  destruct (signedPath_cases W opts path st)
    as [[Hs ->]|(a & b & k & -> & Ha & Hb & ->)]; simpl; [lia|].
  rewrite length_app. simpl. lia.
Qed.

Lemma signList_calls_le (W : World) opts clips st :
  length (signed (snd (signList W opts clips st))) <=
    length (signed st) + length clips /\
  length (signed st) <= length (signed (snd (signList W opts clips st))).
Proof.
  revert st; induction clips as [|cl clips IH]; intros st;
    cbn [signList]; unfold bind, ret; [simpl; lia|].
  pose proof (signedPath_calls_le W opts (Path cl) st) as H1.
  destruct (signedPath W (Path cl) opts st) as [[p [e'|]] st1];
    simpl in *; [lia|].
  pose proof (IH st1) as H2.
  destruct (signList W opts clips st1) as [[clips1 err] st2]. simpl in *. lia.
Qed.

Lemma signSeqList_calls_le (W : World) opts seqs st :
  length (signed (snd (signSeqList W opts seqs st))) <=
    length (signed st) + length (clipPaths seqs) /\
  length (signed st) <= length (signed (snd (signSeqList W opts seqs st))).
Proof.
  revert st; induction seqs as [|sq seqs IH]; intros st;
    cbn [signSeqList]; unfold bind, ret; [simpl; lia|].
  unfold clipPaths. cbn [fmap list_fmap concat].
  rewrite length_app, length_fmap. fold (clipPaths seqs).
  pose proof (signList_calls_le W opts (Clips sq) st) as H1.
  destruct (signList W opts (Clips sq) st) as [[clips [e'|]] st1];
    simpl in *; [lia|].
  pose proof (IH st1) as H2.
  destruct (signSeqList W opts seqs st1) as [[seqs1 err] st2]. simpl in *. lia.
Qed.

End BoundFacts.

Import BoundFacts.

(** X10. Whatever the request and the behaviour of the lister, the map
    handler sends the lister at most five queries for each physical prefix,
    that is at most five times one plus the number of alternate prefixes;
    every query has the delimiter [/] and the prefix of one of the physical
    prefixes of the request, with its marker taken away. *)
Theorem lister_queries_bounded (W : World) (config : Config) (r : Request)
    (st : State) :
  exists queries,
    listed (snd (getMapHandler W config r st)) = listed st ++ queries /\
    length queries <= 5 * (1 + length (MapExtraPrefixes config)) /\
    Forall
      (fun q =>
         storage.Delimiter q = "/" /\
         exists p,
           p ∈ getPrefixes (GoStrings.TrimLeft (URL_Path r) "/") config /\
           storage.Prefix q = listerPrefix p)
      queries.
Proof.
  unfold getMapHandler.
  case_bool_decide.
  { exists []. simpl. rewrite app_nil_r. split; [done|]. split; [lia|done]. }
  case_bool_decide.
  { exists []. simpl. rewrite app_nil_r. split; [done|]. split; [lia|done]. }
  unfold bind, getPrefixMapping.
  destruct (getPrefixMapping_loop_queries W config
              (getPrefixes (GoStrings.TrimLeft (URL_Path r) "/") config)
              {| Sequences := [] |} st) as (queries & Hq & Hlen & Hall).
  exists queries.
  assert (length queries <= 5 * (1 + length (MapExtraPrefixes config))) as Hn.
  { rewrite getPrefixes_map in Hlen. simpl length in Hlen.
    rewrite length_fmap in Hlen. unfold maxTry in Hlen. lia. }
  assert (Forall
            (fun q =>
               storage.Delimiter q = "/" /\
               exists p,
                 p ∈ getPrefixes (GoStrings.TrimLeft (URL_Path r) "/") config /\
                 storage.Prefix q = listerPrefix p) queries) as Hshape.
  { eapply Forall_impl; [exact Hall|]. intros q (p & Hin & ->). eauto. }
  destruct (getPrefixMapping_loop _ _ _ _ _) as [[m1 err1] st1]. simpl in Hq.
  assert (forall m, listed (snd (signedURLs W config m st1)) =
                    listed st ++ queries) as Hsign.
  { intros m. by rewrite signedURLs_listed. }
  destruct err1 as [[|msg]|].
  - specialize (Hsign (appendExtraResources r config m1)).
    destruct (signedURLs _ _ _ _) as [[m' [e|]] st2]; done.
  - done.
  - specialize (Hsign (appendExtraResources r config m1)).
    destruct (signedURLs _ _ _ _) as [[m' [e|]] st2]; done.
Qed.

(** X11. The signing stage sends the signer at most one request for each
    clip of the manifest, whether it ends with an error or not, and none
    when signing is disabled. *)
Theorem signer_requests_bounded (W : World) (config : Config) (m : mapping)
    (st : State) :
  length (signingCalls W config m st) <= length (clipPaths (Sequences m)) /\
  (AccessID (signConfig config) = "" \/
     PrivateKey (signConfig config) = None ->
   signingCalls W config m st = []).
Proof.
  unfold signingCalls. split.
  - rewrite length_drop.
    destruct (decide (AccessID (signConfig config) = "")) as [Hid|Hid].
    { rewrite signedURLs_disabled; [simpl; lia|by left]. }
    destruct (PrivateKey (signConfig config)) as [key|] eqn:Hkey.
    2: { rewrite signedURLs_disabled; [simpl; lia|by right]. }
    rewrite (signedURLs_enabled W config m st key) by done.
    pose proof (signSeqList_calls_le W
                  (optionsAt (signConfig config) key (now st)) (Sequences m) st)
      as [H1 H2].
    destruct (signSeqList _ _ _ _) as [[seqs err] st']. simpl in *. lia.
  - intros Hoff. rewrite signedURLs_disabled by done. simpl.
    by rewrite drop_all.
Qed.

Lemma signer_requests_bounded_sample :
  signingCalls Sample.world Sample.config Sample.twoClips Sample.start = [].
Proof.
  apply (proj2 (signer_requests_bounded Sample.world Sample.config
                  Sample.twoClips Sample.start)).
  by left.
Defined.

Module SplitFacts.
Import GoStrings.

#[local] Arguments String.append : simpl nomatch.

Lemma length_take_le n s : String.length (take n s) <= n.
Proof.
  revert s; induction n as [|n IH]; intros [|c s]; simpl; try lia.
  specialize (IH s). lia.
Qed.

Lemma length_drop n s : String.length (drop n s) = String.length s - n.
Proof.
  revert s; induction n as [|n IH]; intros [|c s]; simpl; try lia. apply IH.
Qed.

Lemma Contains_intro s sub a b :
  s = a +:+ sub +:+ b -> Contains s sub = true.
Proof.
  intros E. unfold Contains.
  destruct (Index_occurs s sub (String.length a)) as (k & -> & _); [|done].
  by exists a, b.
Qed.

(** Before its first occurrence in a string, a separator does not occur. *)
Lemma Index_take_None s sep i :
  sep <> "" -> Index s sep = Some i -> Index (take i s) sep = None.
Proof.
  intros Hsep Hi. destruct (Index (take i s) sep) as [j|] eqn:E; [|done].
  exfalso. destruct (Index_Some _ _ _ Hi) as [_ Hmin].
  destruct (Index_Some _ _ _ E) as [(a & b & Hab & Ha) _].
  apply (Hmin j).
  - pose proof (length_take_le i s) as Hl. rewrite Hab in Hl.
    rewrite !length_append in Hl. destruct sep; [done|]. simpl in Hl. lia.
  - exists a, (b +:+ drop i s). split; [|done].
    rewrite <- (take_drop i s) at 1. rewrite Hab.
    by rewrite !append_assoc.
Qed.

Lemma Count_loop_le f s sep : Count_loop f s sep <= f.
Proof.
  revert s; induction f as [|f IH]; intros s; simpl; [lia|].
  destruct (Index s sep); [|lia]. specialize (IH (drop (n + String.length sep) s)).
  lia.
Qed.

(** Cut as often as the separator is counted, a string falls into pieces
    without the separator. *)
Lemma genSplit_loop_pieces f s sep :
  sep <> "" -> String.length s <= f ->
  Forall (fun piece => Index piece sep = None)
    (genSplit_loop (Count_loop f s sep) s sep).
Proof.
  intros Hsep. revert s; induction f as [|f IH]; intros s Hl.
  - destruct s; [|simpl in Hl; lia]. simpl. constructor; [|done].
    rewrite Index_nil. by destruct sep.
  - cbn [Count_loop]. destruct (Index s sep) as [i|] eqn:E.
    + cbn [genSplit_loop]. rewrite E. constructor.
      * by apply Index_take_None.
      * apply IH. rewrite length_drop.
        pose proof (Index_Some_length _ _ _ E). destruct sep; [done|].
        simpl in *. lia.
    + simpl. by constructor.
Qed.

Lemma Split_loop s sep :
  sep <> "" -> Split s sep = genSplit_loop (Count s sep) s sep.
Proof.
  intros Hsep. unfold Split, genSplit.
  rewrite (bool_decide_eq_false_2 (-1 = 0)%Z) by lia.
  rewrite (bool_decide_eq_false_2 (sep = "")) by done.
  rewrite (bool_decide_eq_true_2 (-1 < 0)%Z) by lia.
  rewrite bool_decide_eq_false_2; [done|].
  unfold Count. rewrite bool_decide_eq_false_2 by done.
  pose proof (Count_loop_le (String.length s) s sep). lia.
Qed.

Lemma Split_pieces s sep :
  sep <> "" -> Forall (fun piece => Index piece sep = None) (Split s sep).
Proof.
  intros Hsep. rewrite Split_loop by done. unfold Count.
  rewrite bool_decide_eq_false_2 by done. by apply genSplit_loop_pieces.
Qed.

Lemma genSplit_loop_length_le n s sep :
  length (genSplit_loop n s sep) <= S n.
Proof.
  revert s; induction n as [|n IH]; intros s; simpl; [lia|].
  destruct (Index s sep); simpl; [|lia].
  specialize (IH (drop (n0 + String.length sep) s)). lia.
Qed.

End SplitFacts.

Import SplitFacts.

(** X12. The sequences that the extra-resource stage appends hold one clip
    of type [source] each, whose path is not empty and has no comma; there
    are at most as many of them as the value of the query parameter has
    commas, plus one.  A path with a comma can thus not be injected. *)
Theorem extra_paths_have_no_comma (r : Request) (config : Config)
    (m : mapping) :
  let value := Values_Get (URL_Query r) (ExtraResourcesToken config) in
  exists extras,
    Sequences (appendExtraResources r config m) = Sequences m ++ extras /\
    length extras <= S (GoStrings.Count value ",") /\
    Forall
      (fun sq =>
         exists path,
           sq = {| Clips := [{| Type_ := "source"; Path := path |}] |} /\
           path <> "" /\ GoStrings.Contains path "," = false)
      extras.
Proof.
  intros value. exists (extraSequences r config).
  split; [apply appendExtraResources_sequences|].
  unfold extraSequences. fold value. split.
  - rewrite length_fmap.
    etransitivity; [apply List.filter_length_le|].
    rewrite Split_loop by done. apply genSplit_loop_length_le.
  - apply Forall_fmap, Forall_forall. intros path Hin. simpl.
    apply list_elem_of_In, filter_In in Hin as [Hin Hne].
    exists path. split; [done|]. split.
    + intros ->. done.
    + pose proof (Split_pieces value "," ltac:(done)) as Hall.
      rewrite Forall_forall in Hall. apply list_elem_of_In in Hin.
      apply Hall in Hin. unfold GoStrings.Contains. by rewrite Hin.
Qed.

Module BaseFacts.
Import GoStrings GoPath.

#[local] Arguments String.append : simpl nomatch.

Lemma stripTrailingSlashes_file file :
  slashes file = 0 -> stripTrailingSlashes file = file.
Proof.
  induction file as [|c file IH]; [done|]. cbn [slashes stripTrailingSlashes].
  destruct (Ascii.eqb c "/") eqn:E; [lia|]. intros H. rewrite IH by lia.
  by destruct file.
Qed.

Lemma stripTrailingSlashes_append d file :
  file <> "" -> slashes file = 0 ->
  stripTrailingSlashes (d +:+ file) = d +:+ file.
Proof.
  intros Hne Hs. induction d as [|c d IH].
  - by apply stripTrailingSlashes_file.
  - change (String c d +:+ file) with (String c (d +:+ file)).
    cbn [stripTrailingSlashes]. rewrite IH.
    destruct (d +:+ file) eqn:E; [|done].
    destruct d; [|done]. by destruct file.
Qed.

(** [filepath.Base] of a key is what follows its last slash. *)
Lemma Base_file dir file :
  file <> "" -> slashes file = 0 ->
  Base (dir +:+ "/" +:+ file) = file /\ Base file = file.
Proof.
  intros Hne Hs. unfold Base. split.
  - rewrite bool_decide_eq_false_2 by by destruct dir.
    rewrite <- append_assoc.
    rewrite stripTrailingSlashes_append by done. rewrite append_assoc.
    rewrite LastIndexByte_last by done.
    replace (S (String.length dir)) with (String.length (dir +:+ "/"))
      by (rewrite length_append; simpl; lia).
    rewrite <- append_assoc, drop_append. by rewrite bool_decide_eq_false_2.
  - rewrite bool_decide_eq_false_2 by done.
    rewrite stripTrailingSlashes_file by done.
    apply LastIndexByte_None in Hs. rewrite Hs.
    by rewrite bool_decide_eq_false_2.
Qed.

Lemma stripTrailingSlashes_slash s :
  stripTrailingSlashes (s +:+ "/") = stripTrailingSlashes s.
Proof.
  induction s as [|c s IH]; [done|].
  change (String c s +:+ "/") with (String c (s +:+ "/")).
  cbn [stripTrailingSlashes]. by rewrite IH.
Qed.

Lemma stripTrailingSlashes_slashRun s k :
  stripTrailingSlashes (s +:+ slashRun k) = stripTrailingSlashes s.
Proof.
  revert s. induction k as [|k IH]; intros s.
  - by rewrite append_nil_r.
  - change (slashRun (S k)) with ("/" +:+ slashRun k).
    by rewrite <- append_assoc, IH, stripTrailingSlashes_slash.
Qed.

(** [filepath.Base] does not look at trailing slashes. *)
Lemma Base_slashRun s k : s <> "" -> Base (s +:+ slashRun k) = Base s.
Proof.
  intros Hs. unfold Base. rewrite stripTrailingSlashes_slashRun.
  rewrite (bool_decide_eq_false_2 (s = "")) by done.
  rewrite bool_decide_eq_false_2; [done|]. by destruct s.
Qed.

Lemma Base_slashes k : Base (slashRun (S k)) = "/".
Proof.
  unfold Base. rewrite bool_decide_eq_false_2 by done.
  change (slashRun (S k)) with ("" +:+ slashRun (S k)).
  by rewrite stripTrailingSlashes_slashRun.
Qed.

(** Every key is empty, made of slashes only, or ends with a non-empty
    element without a slash that only slashes follow. *)
Lemma key_shape key :
  key = "" \/
  (exists k, key = slashRun (S k)) \/
  exists dir file k,
    file <> "" /\ slashes file = 0 /\
    (key = file +:+ slashRun k \/
     key = dir +:+ "/" +:+ file +:+ slashRun k).
Proof.
  induction key as [|c key IH]; [by left|]. right.
  destruct (Ascii.eqb_spec c "/") as [->|Hc].
  - destruct IH as [->|[[k ->]|(dir & file & k & Hne & Hs & [->| ->])]].
    + left. by exists 0.
    + left. by exists (S k).
    + right. exists "", file, k. split; [done|]. split; [done|]. by right.
    + right. exists (String "/" dir), file, k. split; [done|].
      split; [done|]. by right.
  - right.
    assert (slashes (String c "") = 0) as Hc0.
    { cbn [slashes]. by destruct (Ascii.eqb_spec c "/"). }
    destruct IH as [->|[[k ->]|(dir & file & k & Hne & Hs & [->| ->])]].
    + exists "", (String c ""), 0. split; [done|]. split; [done|]. by left.
    + exists "", (String c ""), (S k). split; [done|]. split; [done|].
      by left.
    + exists "", (String c file), k. split; [done|]. split; [|by left].
      change (String c file) with (String c "" +:+ file).
      rewrite slashes_append. lia.
    + exists (String c dir), file, k. split; [done|]. split; [done|].
      by right.
Qed.

End BaseFacts.

Import BaseFacts.

(** X13. The filter is applied to [filepath.Base] of the key of a listed
    object, that is to the last non-empty element of the key between
    slashes, the slashes that end the key being ignored; it is applied to
    [.] when the key is empty and to [/] when the key is made of slashes
    only, and every key is of one of these three kinds.  Whether the object
    is kept thus depends on the pattern and on that element, not on the
    directories before it nor on the bucket; an object that is kept gives
    one sequence whose clip has the path made of a slash, the bucket, a
    slash and the whole key. *)
Theorem filter_sees_base_filename (W : World) (pattern : string)
    (obj : storage.ObjectAttrs) (sequences : list sequence) :
  let key := storage.Name obj in
  let filteredAs name :=
    collect W pattern [obj] sequences =
    (if fst (regexp_MatchString W pattern name)
     then sequences ++
          [{| Clips :=
                [{| Type_ := "source";
                    Path := "/" +:+ storage.Bucket obj +:+ "/" +:+ key |}] |}]
     else sequences) in
  (key = "" -> filteredAs ".") /\
  (forall k, key = slashRun (S k) -> filteredAs "/") /\
  (forall dir file k,
     file <> "" -> GoStrings.slashes file = 0 ->
     key = file +:+ slashRun k \/
     key = dir +:+ "/" +:+ file +:+ slashRun k ->
     filteredAs file) /\
  (key = "" \/
   (exists k, key = slashRun (S k)) \/
   exists dir file k,
     file <> "" /\ GoStrings.slashes file = 0 /\
     (key = file +:+ slashRun k \/
      key = dir +:+ "/" +:+ file +:+ slashRun k)).
Proof.
  intros key filteredAs.
  assert (forall name, GoPath.Base key = name -> filteredAs name) as Hbase.
  { intros name <-. unfold filteredAs. cbn [collect]. fold key.
    by destruct (regexp_MatchString W pattern (GoPath.Base key)) as [[] ?]. }
  split; [|split; [|split]].
  - intros Hk. apply Hbase. by rewrite Hk.
  - intros k Hk. apply Hbase. rewrite Hk. apply Base_slashes.
  - intros dir file k Hne Hs Hk. apply Hbase.
    destruct (Base_file dir file Hne Hs) as [Hd Hf].
    destruct Hk as [->| ->].
    + rewrite Base_slashRun by done. done.
    + rewrite <- !append_assoc. rewrite Base_slashRun by by destruct dir.
      by rewrite append_assoc.
  - apply key_shape.
Qed.

Lemma filter_sees_base_filename_sample :
  collect Sample.world "720p.mp4"
    [{| storage.Bucket := "media"; storage.Name := "foo/dir_720p.mp4/" |}]
    [] =
  [{| Clips :=
        [{| Type_ := "source"; Path := "/media/foo/dir_720p.mp4/" |}] |}].
Proof.
  apply (proj1 (proj2 (proj2
           (filter_sees_base_filename Sample.world "720p.mp4"
              {| storage.Bucket := "media";
                 storage.Name := "foo/dir_720p.mp4/" |} [])))
           "foo" "dir_720p.mp4" 1).
  - discriminate.
  - reflexivity.
  - right. reflexivity.
Defined.

Module ShapeFacts.

#[local] Arguments String.append : simpl nomatch.

(** Plain segments joined end with the last one. *)
Lemma joinSegments_ends segs last :
  exists before, joinSegments (segs ++ [last]) = before +:+ last.
Proof.
  rewrite joinSegments_snoc.
  exists (spacedSegments ((fun seg => (seg, 0)) <$> segs) "").
  by rewrite spacedSegments_append.
Qed.

(** A sequence of one clip of type [source]. *)
Lemma signing_keeps_source_sequences (W : World) opts seqs seqs' :
  Forall2 (fun sq sq' => Forall2 (signedClip W opts) (Clips sq) (Clips sq'))
    seqs seqs' ->
  Forall (fun sq => exists path, sq = sourceSequence path) seqs ->
  Forall (fun sq => exists path, sq = sourceSequence path) seqs'.
Proof.
  induction 1 as [|sq sq' seqs seqs' Hsq _ IH]; [done|].
  intros Hall. apply Forall_cons in Hall as [[path ->] Hall].
  constructor; [|by apply IH]. simpl in Hsq. destruct sq' as [clips'].
  simpl in Hsq. apply Forall2_cons_inv_l in Hsq
    as (cl' & rest & [Ht _] & Hrest & ->).
  apply Forall2_nil_inv_l in Hrest as ->. destruct cl' as [t p].
  simpl in Ht. subst t. by exists p.
Qed.

Lemma filtered_source_sequences (W : World) pattern objs :
  Forall (fun sq => exists path, sq = sourceSequence path)
    (filtered W pattern objs).
Proof. unfold filtered. apply Forall_fmap, Forall_forall. intros obj _. by eexists. Qed.

End ShapeFacts.

Import ShapeFacts.

(** X14. When the last segment of the requested prefix is a plain segment
    that holds the marker [__HD], the marker reaches every alternate
    location made of plain segments: each physical prefix of the request,
    the original and the alternates joined with that last segment, selects
    the high-definition pattern. *)
Theorem marker_reaches_alternates (original : string) (config : Config)
    (a b : string) :
  plainSegment (snd (GoPath.Split original)) ->
  snd (GoPath.Split original) = a +:+ "__HD" +:+ b ->
  Forall
    (fun alt =>
       exists segs k,
         segs <> [] /\ Forall plainSegment segs /\
         alt = joinSegments segs +:+ slashRun k)
    (MapExtraPrefixes config) ->
  Forall (fun p => filterFor config p = MapRegexHDFilter config)
    (getPrefixes original config).
Proof.
  intros Hplain Hlast Halts. rewrite getPrefixes_map.
  assert (forall p before, p = before +:+ snd (GoPath.Split original) ->
            filterFor config p = MapRegexHDFilter config) as Hmark.
  { intros p before ->. unfold filterFor.
    rewrite (Contains_intro _ "__HD" (before +:+ a) b); [done|].
    rewrite Hlast. by rewrite !append_assoc. }
  constructor.
  - destruct (Split_spec original) as (dir & file & E & Ho & _).
    rewrite E in *. simpl in *. by apply (Hmark _ dir).
  - apply Forall_fmap. eapply Forall_impl; [exact Halts|].
    intros alt (segs & k & Hne & Hsegs & ->). simpl.
    rewrite Join_plain by done.
    destruct (joinSegments_ends segs (snd (GoPath.Split original)))
      as [before ->].
    by apply (Hmark _ before).
Qed.

Lemma marker_reaches_alternates_sample :
  Forall (fun p => filterFor Sample.config p = "720p.mp4")
    (getPrefixes "foo/bar/asset__HD" Sample.config).
Proof.
  apply (marker_reaches_alternates "foo/bar/asset__HD" Sample.config
           "asset" "").
  - exists "a"%char, "sset__HD". split; [reflexivity|].
    split; [discriminate|reflexivity].
  - reflexivity.
  - constructor; [|constructor].
    exists ["subtitles"], 1. split; [discriminate|]. split; [|reflexivity].
    constructor; [|constructor].
    exists "s"%char, "ubtitles". split; [reflexivity|].
    split; [discriminate|reflexivity].
Defined.

(** X15. Every sequence of a manifest that the map handler sends with the
    status 200 holds exactly one clip, and its type is [source], whether the
    sequence comes from a listing or from an extra resource and whether its
    path was signed or not. *)
Theorem manifest_sequences_are_single_sources (W : World) (config : Config)
    (r : Request) (st : State) (m : mapping) :
  Body (fst (getMapHandler W config r st)) = JSON m ->
  Forall
    (fun sq =>
       exists path, Clips sq = [{| Type_ := "source"; Path := path |}])
    (Sequences m).
Proof.
  intros Hbody.
  assert (Forall (fun sq => exists path, sq = sourceSequence path)
            (Sequences m)) as Hall.
  2: { eapply Forall_impl; [exact Hall|]. intros sq [path ->]. by exists path. }
  revert Hbody. unfold getMapHandler.
  case_bool_decide; [done|]. case_bool_decide; [done|]. unfold bind.
  set (prefix := GoStrings.TrimLeft (URL_Path r) "/").
  pose proof (getPrefixMapping_loop_not_Done W config
                (getPrefixes prefix config) {| Sequences := [] |} st) as Hnd.
  destruct (getPrefixMapping W prefix config st) as [[m1 err1] st1] eqn:E1.
  unfold getPrefixMapping in E1. rewrite E1 in Hnd. simpl in Hnd.
  destruct err1 as [[|msg]|]; [done|done|].
  apply getPrefixMapping_ok in E1 as [_ Hm1].
  assert (Forall (fun sq => exists path, sq = sourceSequence path)
            (Sequences (appendExtraResources r config m1))) as Hpre.
  { rewrite appendExtraResources_sequences, Hm1. apply Forall_app. split.
    - apply Forall_concat, Forall_fmap.
      eapply Forall_impl; [apply expansions_filtered|].
      intros [seqs err] (pattern & objs & Hr). simpl in *. subst seqs.
      apply filtered_source_sequences.
    - unfold extraSequences. apply Forall_fmap, Forall_forall.
      intros path _. by eexists. }
  destruct (decide (AccessID (signConfig config) = "")) as [Hid|Hid].
  { rewrite signedURLs_disabled by by left. by intros [= <-]. }
  destruct (PrivateKey (signConfig config)) as [key|] eqn:Hkey.
  2: { rewrite signedURLs_disabled by by right. by intros [= <-]. }
  rewrite (signedURLs_enabled W config _ st1 key) by done.
  destruct (signSeqList _ _ _ _) as [[seqs [e|]] st2] eqn:E2; [done|].
  intros [= <-]. simpl. apply signSeqList_ok in E2.
  by eapply signing_keeps_source_sequences.
Qed.

Lemma manifest_sequences_are_single_sources_sample :
  Forall
    (fun sq =>
       exists path, Clips sq = [{| Type_ := "source"; Path := path |}])
    [sourceSequence "/media/foo/bar/asset_360p.mp4";
     sourceSequence "/media/foo/bar/asset_720p.mp4";
     sourceSequence "/media/subtitles/asset_360p.mp4";
     sourceSequence "a"; sourceSequence "b"].
Proof.
  apply (manifest_sequences_are_single_sources Sample.world Sample.config
           (Sample.request "/foo/bar/asset" (Some "a,,b")) Sample.start
           {| Sequences :=
                [sourceSequence "/media/foo/bar/asset_360p.mp4";
                 sourceSequence "/media/foo/bar/asset_720p.mp4";
                 sourceSequence "/media/subtitles/asset_360p.mp4";
                 sourceSequence "a"; sourceSequence "b"] |}).
  reflexivity.
Defined.

(** X16. For a GET request with a non-empty prefix and signing enabled, the
    answer is 200 exactly when every expansion succeeds and no clip of the
    manifest, the listed sequences followed by the extra resources, fails to
    be signed with the options computed once the listing is over; the
    manifest that is sent is then that manifest with every path rewritten by
    the signing stage. *)
Theorem signed_request_succeeds (W : World) (config : Config) (r : Request)
    (st : State) (key : string) :
  Method r = "GET" ->
  GoStrings.TrimLeft (URL_Path r) "/" <> "" ->
  AccessID (signConfig config) <> "" ->
  PrivateKey (signConfig config) = Some key ->
  let prefix := GoStrings.TrimLeft (URL_Path r) "/" in
  let results := expansions W config (getPrefixes prefix config) st in
  let manifest := concat (fst <$> results) ++ extraSequences r config in
  let opts :=
    optionsAt (signConfig config) key
      (now (snd (getPrefixMapping W prefix config st))) in
  (StatusCode (fst (getMapHandler W config r st)) = 200 <->
   Forall (fun res => snd res = None) results /\
   forall path e, path ∈ clipPaths manifest -> ~ signFails W opts path e) /\
  (forall m,
     Body (fst (getMapHandler W config r st)) = JSON m ->
     Forall2
       (fun sq sq' => Forall2 (signedClip W opts) (Clips sq) (Clips sq'))
       manifest (Sequences m)).
Proof.
  intros Hget Hprefix Hid Hkey prefix results manifest opts. subst opts.
  rewrite getMapHandler_get by done. fold prefix. unfold getPrefixMapping.
  pose proof (getPrefixMapping_loop_not_Done W config
                (getPrefixes prefix config) {| Sequences := [] |} st) as Hnd.
  destruct (Forall_Exists_dec (fun res => snd res = None)
              (fun res => snd res <> None)
              (fun res : list sequence * option error =>
                 decide (snd res = None)) results) as [Hall|Hex].
  - pose proof (getPrefixMapping_loop_ok W config _ {| Sequences := [] |} st
                  Hall) as Hok.
    destruct (getPrefixMapping_loop _ _ _ _ _) as [[m1 err1] st1].
    simpl in Hok. injection Hok as -> ->.
    rewrite (signedURLs_enabled W config _ st1 key) by done.
    rewrite appendExtraResources_sequences. simpl.
    fold results manifest.
    set (opts := optionsAt (signConfig config) key (now st1)).
    destruct (signSeqList W opts manifest st1) as [[seqs [e|]] st2] eqn:E.
    + split; [|done]. split; [done|]. intros [_ Hnone].
      apply signSeqList_err in E as (path & Hin & Hf). by apply Hnone in Hf.
    + split.
      * split; [|done]. intros _. split; [done|]. intros path e Hin Hf.
        destruct (signSeqList_fails W opts manifest st1 path e Hin Hf)
          as [e' He']. rewrite E in He'. done.
      * intros m [= <-]. by eapply signSeqList_ok.
  - destruct (getPrefixMapping_loop_error W config _ {| Sequences := [] |} st
                Hex) as (m' & e & seqs & Hloop & Hdone & _).
    destruct (getPrefixMapping_loop _ _ _ _ _) as [[m1 err1] st1].
    simpl in Hloop. injection Hloop as -> ->.
    destruct e as [|msg]; [done|]. split; [|done]. split; [done|].
    intros [Hall _]. apply Exists_exists in Hex as (res & Hin & Hres).
    rewrite Forall_forall in Hall. by apply Hall in Hin.
Qed.

Lemma signed_request_succeeds_sample :
  StatusCode
    (fst (getMapHandler Sample.world Sample.signingConfig
            (Sample.request "/foo/bar/asset" (Some "a,/media/locked"))
            Sample.start)) = 200 <->
  Forall (fun res => snd res = None)
    (expansions Sample.world Sample.signingConfig
       (getPrefixes "foo/bar/asset" Sample.signingConfig) Sample.start) /\
  forall path e,
    path ∈ clipPaths
      (concat (fst <$> expansions Sample.world Sample.signingConfig
                         (getPrefixes "foo/bar/asset" Sample.signingConfig)
                         Sample.start) ++
       extraSequences (Sample.request "/foo/bar/asset" (Some "a,/media/locked"))
         Sample.signingConfig) ->
    ~ signFails Sample.world
        (optionsAt (signConfig Sample.signingConfig) "secret!"
           (now (snd (getPrefixMapping Sample.world "foo/bar/asset"
                        Sample.signingConfig Sample.start))))
        path e.
Proof.
  apply (proj1 (signed_request_succeeds Sample.world Sample.signingConfig
                  (Sample.request "/foo/bar/asset" (Some "a,/media/locked"))
                  Sample.start "secret!" eq_refl ltac:(by vm_compute)
                  ltac:(discriminate) eq_refl)).
Defined.

(** X17. A request whose listing fails is answered 500 without the signing
    stage: the signer receives no request, and the state is the one the
    listing left. *)
Theorem failed_listing_signs_nothing (W : World) (config : Config)
    (r : Request) (st : State) :
  Method r = "GET" ->
  GoStrings.TrimLeft (URL_Path r) "/" <> "" ->
  Exists (fun res => snd res <> None)
    (expansions W config
       (getPrefixes (GoStrings.TrimLeft (URL_Path r) "/") config) st) ->
  signed (snd (getMapHandler W config r st)) = signed st /\
  snd (getMapHandler W config r st) =
    snd (getPrefixMapping W (GoStrings.TrimLeft (URL_Path r) "/") config st) /\
  StatusCode (fst (getMapHandler W config r st)) = 500.
Proof.
  intros Hget Hprefix Hex. rewrite getMapHandler_get by done.
  unfold getPrefixMapping.
  pose proof (getPrefixMapping_loop_state W config
                (getPrefixes (GoStrings.TrimLeft (URL_Path r) "/") config)
                {| Sequences := [] |} st) as [Hnow Hsigned].
  destruct (getPrefixMapping_loop_error W config _ {| Sequences := [] |} st
              Hex) as (m' & e & seqs & Hloop & Hdone & _).
  destruct (getPrefixMapping_loop _ _ _ _ _) as [[m1 err1] st1].
  simpl in *. injection Hloop as -> ->. by destruct e.
Qed.

Lemma failed_listing_signs_nothing_sample :
  signed (snd (getMapHandler (Sample.flaky 5) Sample.signingConfig
                 (Sample.request "/foo/bar/asset" None) Sample.start)) =
    signed Sample.start /\
  snd (getMapHandler (Sample.flaky 5) Sample.signingConfig
         (Sample.request "/foo/bar/asset" None) Sample.start) =
    snd (getPrefixMapping (Sample.flaky 5) "foo/bar/asset"
           Sample.signingConfig Sample.start) /\
  StatusCode (fst (getMapHandler (Sample.flaky 5) Sample.signingConfig
                     (Sample.request "/foo/bar/asset" None) Sample.start)) =
    500.
Proof.
  apply (failed_listing_signs_nothing (Sample.flaky 5) Sample.signingConfig
           (Sample.request "/foo/bar/asset" None) Sample.start eq_refl).
  - by vm_compute.
  - apply Exists_cons_hd. by vm_compute.
Defined.

